(** * next-translate: the resolver of [I18nProvider.tsx]

    A shallow embedding of the translation resolver [t] and of the helpers
    it is built from ([getDicValue], [plural], [interpolation],
    [objectInterpolation]), followed by the properties of the
    specification that concern them.

    Conventions of the embedding.
    - A JavaScript string is a [string]: each [ascii] stands for the UTF-16
      code unit of the same number, so the model covers the code units
      U+0000 to U+00FF.
    - A JavaScript number is an integer [Z] (counts are integers); it prints
      in decimal, as [Number.prototype.toString] does for every integer of
      magnitude below 10^21.
    - An object is the list of its own enumerable properties in the order
      [Object.keys] lists them, the keys being distinct; a lookup takes the
      first binding of a key.  An array is such an object, its indices
      being the keys.  What a value inherits from its prototype chain
      is a parameter, [inherited].
    - The key handed to [t] is a string, as its signature says.
    - The configured logger is represented by the list of the arguments
      it is called with.
    - A call that receives a pattern outside the fragment of regular
      expressions modelled below yields [BadPattern]; [NoFuel] is the
      outcome of a bounded run of [t] that needs more nested calls than
      it was given. *)

From Stdlib Require Import ZArith List Bool Ascii String Lia DecimalString.
From Stdlib Require Import Permutation.
From Stdlib Require DecimalFacts DecimalNat.
Import ListNotations.
Open Scope string_scope.

#[local] Set Warnings "-register-all".

(** ** Values *)

Inductive value : Type :=
| VUndef
| VNull
| VBool (b : bool)
| VNum (n : Z)
| VStr (s : string)
| VObj (props : list (string * value))
| VFun (name : string).

Inductive jstype : Type :=
| TUndefined | TObject | TBoolean | TNumber | TString | TFunction.

Definition typeof (v : value) : jstype :=
  match v with
  | VUndef => TUndefined
  | VNull => TObject
  | VBool _ => TBoolean
  | VNum _ => TNumber
  | VStr _ => TString
  | VObj _ => TObject
  | VFun _ => TFunction
  end.

Definition is_string (v : value) : bool :=
  match v with VStr _ => true | _ => false end.

Definition is_undefined (v : value) : bool :=
  match v with VUndef => true | _ => false end.

(** [v instanceof Object]: objects and functions, never a primitive. *)
Definition instanceof_Object (v : value) : bool :=
  match v with VObj _ | VFun _ => true | _ => false end.

(** ToBoolean: [undefined], [null], [false], [0] and [''] are falsy. *)
Definition truthy (v : value) : bool :=
  match v with
  | VUndef | VNull => false
  | VBool b => b
  | VNum n => negb (n =? 0)%Z
  | VStr s => negb (s =? "")
  | VObj _ | VFun _ => true
  end.

(** [Object.keys(v)] for an object value; a function has no enumerable own
    property. *)
Definition keys (v : value) : list string :=
  match v with
  | VObj props => map fst props
  | _ => []
  end.

Fixpoint assoc {A : Type} (k : string) (l : list (string * A)) : option A :=
  match l with
  | [] => None
  | (k', a) :: l' => if k =? k' then Some a else assoc k l'
  end.

(** ** Strings and numbers *)

Definition string_of_Z (n : Z) : string :=
  NilZero.string_of_int (Z.to_int n).

Definition string_of_nat (n : nat) : string :=
  NilZero.string_of_uint (Nat.to_uint n).

(** The own properties of a string primitive: [length] and one
    single-character string per canonical index. *)
Fixpoint char_at_key (k : string) (s : string) (i : nat) : option value :=
  match s with
  | "" => None
  | String c s' =>
      if k =? string_of_nat i then Some (VStr (String c ""))
      else char_at_key k s' (S i)
  end.

Definition string_own (s k : string) : option value :=
  if k =? "length" then Some (VNum (Z.of_nat (String.length s)))
  else char_at_key k s 0.

(** [str.split(sep)] on a one-character separator: the pieces between the
    separators, never an empty list. *)
Fixpoint split_on (sep : ascii) (s : string) : list string :=
  match s with
  | "" => [""]
  | String c s' =>
      if Ascii.eqb c sep then "" :: split_on sep s'
      else match split_on sep s' with
           | [] => [String c ""]
           | seg :: segs => String c seg :: segs
           end
  end.

(** Line terminators, which [.] does not match. *)
Definition line_terminator (c : ascii) : bool :=
  (Ascii.eqb c "010" || Ascii.eqb c "013")%char.

(** What [.+] consumes: the longest run free of line terminators. *)
Fixpoint take_line (s : string) : string :=
  match s with
  | "" => ""
  | String c s' => if line_terminator c then "" else String c (take_line s')
  end.

(** The first two elements of [k.split(/:(.+)/)]: the text before the first
    colon that is followed by a character other than a line terminator,
    and the capture after it.  Without such a colon the array is [[k]] and
    its second element is undefined. *)
Fixpoint split_key (k : string) : string * option string :=
  match k with
  | "" => ("", None)
  | String c rest =>
      let go := let (ns, leaf) := split_key rest in (String c ns, leaf) in
      if Ascii.eqb c ":" then
        match rest with
        | String d _ =>
            if line_terminator d then go else ("", Some (take_line rest))
        | "" => go
        end
      else go
  end.

(** ** Queries and options *)

Inductive qvalue : Type :=
| QStr (s : string)
| QNum (n : Z).

(** [`${v}`] *)
Definition qvalue_to_string (v : qvalue) : string :=
  match v with
  | QStr s => s
  | QNum n => string_of_Z n
  end.

(** A [TranslationQuery], in the order of [Object.keys]. *)
Definition TranslationQuery : Type := list (string * qvalue).

(** [typeof query.count === 'number'], with the count. *)
Definition query_count (q : TranslationQuery) : option Z :=
  match assoc "count" q with
  | Some (QNum c) => Some c
  | _ => None
  end.

Inductive fallback_t : Type :=
| FbAbsent
| FbString (s : string)
| FbArray (l : list string).

(** The options of [t]; an absent [returnObjects] is falsy and is
    represented by [false]. *)
Record options : Type := mkOptions {
  returnObjects : bool;
  fallback : fallback_t
}.

(** The default of [getDicValue]'s third parameter. *)
Definition default_options : options := mkOptions false FbAbsent.

Definition returnObjects_of (o : option options) : bool :=
  match o with
  | Some o => returnObjects o
  | None => returnObjects default_options
  end.

(** [`${key}`] of a key that may be undefined. *)
Definition template_key (key : option string) : string :=
  match key with
  | Some s => s
  | None => "undefined"
  end.

(** The default [key = ''] of [getDicValue]. *)
Definition key_or_default (key : option string) : string :=
  match key with
  | Some k => k
  | None => ""
  end.

(** Plural categories of [Intl.PluralRules.prototype.select]. *)
Inductive category : Type := zero | one | two | few | many | other.

Definition category_name (c : category) : string :=
  match c with
  | zero => "zero" | one => "one" | two => "two"
  | few => "few" | many => "many" | other => "other"
  end.

Section Navigator.

(** [inherited v k] is the value of [v[k]] when [k] is not an own
    property of [v]: what the prototype chain supplies ([toString],
    [constructor], ...), [VUndef] when nothing does. *)
Variable inherited : value -> string -> value.

(** [val[key]] *)
Definition get (val : value) (key : string) : value :=
  match val with
  | VObj props =>
      match assoc key props with
      | Some v => v
      | None => inherited val key
      end
  | VStr s =>
      match string_own s key with
      | Some v => v
      | None => inherited val key
      end
  | _ => inherited val key
  end.

(** [v || {}] *)
Definition or_empty (v : value) : value :=
  if truthy v then v else VObj [].

(** The reducer of [getDicValue]. *)
Definition step (val : value) (key : string) : value :=
  or_empty (get val key).

(** [segments.reduce((val, key) => val[key] || {}, dic)] *)
Definition walk (dic : value) (segments : list string) : value :=
  fold_left step segments dic.

(** Get value from key (allow nested keys as parent.children). *)
Definition getDicValue (dic : value) (key : option string)
    (opts : option options) : value :=
  let val := walk dic (split_on "." (key_or_default key)) in
  if is_string val || (instanceof_Object val && returnObjects_of opts)
  then val
  else VUndef.

Variable pluralRules : Z -> category.

(** [`${key}_${query.count}`] *)
Definition numKey (key : option string) (count : Z) : string :=
  template_key key ++ "_" ++ string_of_Z count.

(** [`${key}_${pluralRules.select(query.count)}`] *)
Definition pluralKey (key : option string) (count : Z) : string :=
  template_key key ++ "_" ++ category_name (pluralRules count).

(** [getDicValue(dic, key) !== undefined], the test of both probes. *)
Definition found (dic : value) (key : string) : bool :=
  negb (is_undefined (getDicValue dic (Some key) None)).

(** Control plural keys depending the [{{count}}] variable. *)
Definition plural (dic : value) (key : option string)
    (query : option TranslationQuery) : option string :=
  match query with
  | None => key
  | Some q =>
      match query_count q with
      | None => key
      | Some count =>
          if found dic (numKey key count) then Some (numKey key count)
          else if (1 <? count)%Z && found dic (pluralKey key count)
          then Some (pluralKey key count)
          else key
      end
  end.

End Navigator.

(** ** Regular expressions

    [interpolation] builds the source of a regular expression and hands
    it to [RegExp].  The fragment modelled is the one the function writes
    itself: literal characters, escaped syntax characters and [\s*].  A
    query key is pasted into the source unescaped; when it brings in any
    other construct the pattern is outside the fragment ([BadPattern]). *)

Inductive atom : Type :=
| Char (c : ascii)
| WsStar.

Definition mem_ascii (c : ascii) (s : string) : bool :=
  existsb (Ascii.eqb c) (list_ascii_of_string s).

(** The characters [escapeRegex] escapes: [/[-\/\\^$*+?.()|[\]{}]/g]. *)
Definition escaped_set : string := "-/\^$*+?.()|[]{}".

(** The syntax characters of a pattern. *)
Definition syntax_set : string := "\^$.*+?()[]{}|".

(** [str.replace(/[-\/\\^$*+?.()|[\]{}]/g, '\\$&')] *)
Fixpoint escapeRegex (str : string) : string :=
  match str with
  | "" => ""
  | String c str' =>
      if mem_ascii c escaped_set
      then String "\" (String c (escapeRegex str'))
      else String c (escapeRegex str')
  end.

(** [new RegExp(src, 'gm')] for a source inside the fragment. *)
Fixpoint compile (src : string) : option (list atom) :=
  match src with
  | "" => Some []
  | String c r =>
      if Ascii.eqb c "\" then
        match r with
        | String d r' =>
            if Ascii.eqb d "s" then
              match r' with
              | String e r'' =>
                  if Ascii.eqb e "*"
                  then option_map (cons WsStar) (compile r'')
                  else None
              | "" => None
              end
            else if mem_ascii d escaped_set
            then option_map (cons (Char d)) (compile r')
            else None
        | "" => None
        end
      else if mem_ascii c syntax_set then None
      else option_map (cons (Char c)) (compile r)
  end.

(** [\s] on the code units of the model: tab, line feed, vertical tab,
    form feed, carriage return, space and no-break space. *)
Definition whitespace (c : ascii) : bool :=
  let n := nat_of_ascii c in
  ((9 <=? n) && (n <=? 13) || (n =? 32) || (n =? 160))%nat.

(** Greedy [\s*] with backtracking: the longest run first, shorter runs
    when the continuation [k] fails. *)
Fixpoint ws_star (k : string -> option nat) (s : string) : option nat :=
  match s with
  | String c s' =>
      if whitespace c then
        match ws_star k s' with
        | Some n => Some (S n)
        | None => k s
        end
      else k s
  | "" => k s
  end.

(** The number of characters a match of [p] starting at the head of [s]
    consumes. *)
Fixpoint match_atoms (p : list atom) (s : string) : option nat :=
  match p with
  | [] => Some 0
  | Char c :: p' =>
      match s with
      | String d s' =>
          if Ascii.eqb c d then option_map S (match_atoms p' s') else None
      | "" => None
      end
  | WsStar :: p' => ws_star (match_atoms p') s
  end.

Fixpoint skipn_string (n : nat) (s : string) : string :=
  match n, s with
  | S n', String _ s' => skipn_string n' s'
  | _, _ => s
  end.

(** GetSubstitution for a pattern without capture groups: [$$], [$&],
    [$`] and [$'] are replaced, any other [$] stands for itself. *)
Fixpoint expand (matched before after repl : string) : string :=
  match repl with
  | "" => ""
  | String c r =>
      if Ascii.eqb c "$" then
        match r with
        | String d r' =>
            if Ascii.eqb d "$" then String "$" (expand matched before after r')
            else if Ascii.eqb d "&"
            then matched ++ expand matched before after r'
            else if Ascii.eqb d "`"
            then before ++ expand matched before after r'
            else if Ascii.eqb d "'"
            then after ++ expand matched before after r'
            else String c (expand matched before after r)
        | "" => String c ""
        end
      else String c (expand matched before after r)
  end.

(** [str.replace(regex, repl)] for a global [regex]: scan [s] (the text
    after [before]) from left to right; at a position where the pattern
    matches, emit the expansion of [repl] and drop the matched
    characters ([skip] counts those still to drop); elsewhere copy the
    character.  After an empty match the scan moves on by one character,
    which is copied. *)
Fixpoint replace_from (p : list atom) (repl : string)
    (before s : string) (skip : nat) : string :=
  match skip with
  | S skip' =>
      match s with
      | String c s' => replace_from p repl (before ++ String c "") s' skip'
      | "" => ""
      end
  | O =>
      match match_atoms p s with
      | Some n =>
          expand (substring 0 n s) before (skipn_string n s) repl ++
          match s with
          | String c s' =>
              match n with
              | O => String c (replace_from p repl (before ++ String c "") s' 0)
              | S n' => replace_from p repl (before ++ String c "") s' n'
              end
          | "" => ""
          end
      | None =>
          match s with
          | String c s' =>
              String c (replace_from p repl (before ++ String c "") s' 0)
          | "" => ""
          end
      end
  end.

Definition replace_all (p : list atom) (repl text : string) : string :=
  replace_from p repl "" text 0.

(** ** Outcomes *)

Inductive run (A : Type) : Type :=
| Return (a : A)
| BadPattern
| NoFuel.

Arguments Return {A} a.
Arguments BadPattern {A}.
Arguments NoFuel {A}.

Definition bind {A B : Type} (m : run A) (f : A -> run B) : run B :=
  match m with
  | Return a => f a
  | BadPattern => BadPattern
  | NoFuel => NoFuel
  end.

Notation "x <- m ;; k" := (bind m (fun x => k))
  (at level 61, m at next level, right associativity).

(** ** Interpolation *)

Record I18nConfig : Type := mkConfig {
  (** [config.interpolation], [{prefix, suffix}] when present *)
  interpolation_delimiters : option (string * string)
}.

Definition delimiters (config : I18nConfig) : string * string :=
  match interpolation_delimiters config with
  | Some d => d
  | None => ("{{", "}}")
  end.

(** [`${escapeRegex(prefix)}\s*${varKey}\s*${escapeRegex(suffix)}`] *)
Definition pattern_source (prefix varKey suffix : string) : string :=
  escapeRegex prefix ++ "\s*" ++ varKey ++ "\s*" ++ escapeRegex suffix.

(** One step of the [reduce]: replace the placeholders of [varKey]. *)
Definition replace_key (config : I18nConfig) (all : string)
    (entry : string * qvalue) : run string :=
  let (prefix, suffix) := delimiters config in
  let (varKey, v) := entry in
  match compile (pattern_source prefix varKey suffix) with
  | Some regex => Return (replace_all regex (qvalue_to_string v) all)
  | None => BadPattern
  end.

(** [Object.keys(query).reduce(..., text)] *)
Fixpoint reduce_keys (config : I18nConfig) (q : TranslationQuery)
    (all : string) : run string :=
  match q with
  | [] => Return all
  | entry :: q' =>
      all' <- replace_key config all entry ;;
      reduce_keys config q' all'
  end.

(** Replace [{{variables}}] to query values. *)
Definition interpolation (text : option string)
    (query : option TranslationQuery) (config : I18nConfig) : run string :=
  match text, query with
  | Some (String c txt), Some q => reduce_keys config q (String c txt)
  | Some txt, _ => Return txt
  | None, _ => Return ""
  end.

(** [objectInterpolation] returns [obj] itself, its string leaves
    overwritten with their interpolation.  The value returned is
    modelled; that the dictionary holding [obj] sees the same writes is
    not. *)
Fixpoint objectInterpolation (obj : value)
    (query : option TranslationQuery) (config : I18nConfig) : run value :=
  match query with
  | None | Some [] => Return obj
  | Some _ =>
      match obj with
      | VObj props =>
          props' <-
            (fix each (ps : list (string * value)) :
                run (list (string * value)) :=
               match ps with
               | [] => Return []
               | (key, v) :: ps' =>
                   v' <- (if instanceof_Object v
                          then objectInterpolation v query config
                          else match v with
                               | VStr s =>
                                   s' <- interpolation (Some s) query config ;;
                                   Return (VStr s')
                               | _ => Return v
                               end) ;;
                   rest <- each ps' ;;
                   Return ((key, v') :: rest)
               end) props ;;
          Return (VObj props')
      | _ => Return obj
      end
  end.

(** ** The resolver *)

Record LoggerProps : Type := mkLoggerProps {
  namespace : string;
  i18nKey : option string
}.

(** [typeof options?.fallback === 'string' ? [options.fallback]
     : options?.fallback || []] *)
Definition fallbacks_of (opts : option options) : list string :=
  match opts with
  | Some o =>
      match fallback o with
      | FbString s => [s]
      | FbArray l => l
      | FbAbsent => []
      end
  | None => []
  end.

(** [{ ...options, fallback: restFallbacks }] *)
Definition with_fallback (opts : option options) (rest : list string)
    : option options :=
  Some (mkOptions (returnObjects_of opts) (FbArray rest)).

(** [typeof value === 'undefined' ||
     (typeof value === 'object' && !Object.keys(value).length)] *)
Definition is_empty (v : value) : bool :=
  is_undefined v
  || (match typeof v with TObject => true | _ => false end
      && (List.length (keys v) =? 0)%nat).

(** [value as string], handed to [interpolation] as its [text]. *)
Definition as_text (v : value) : option string :=
  match v with
  | VStr s => Some s
  | _ => None
  end.

Section Provider.

Variable inherited : value -> string -> value.
(** [{ ...ns, ...namespaces }] *)
Variable allNamespaces : list (string * value).
(** [new Intl.PluralRules(lang).select] *)
Variable pluralRules : Z -> category.
Variable config : I18nConfig.
(** [typeof window !== 'undefined'] *)
Variable window_defined : bool.

(** [allNamespaces[namespace] || {}] *)
Definition dictionary (namespace : string) : value :=
  or_empty (get inherited (VObj allNamespaces) namespace).

(** The value of step 3 for a key: split, select the plural key, look
    up. *)
Definition lookup (key : string) (query : option TranslationQuery)
    (opts : option options) : value :=
  let (namespace, i18nKey) := split_key key in
  let dic := dictionary namespace in
  let keyWithPlural := plural inherited pluralRules dic i18nKey query in
  getDicValue inherited dic keyWithPlural opts.

(** The calls of the configured logger, in order. *)
Definition logged (key : string) (empty : bool) : list LoggerProps :=
  if window_defined && empty
  then [let (namespace, i18nKey) := split_key key in
        mkLoggerProps namespace i18nKey]
  else [].

(** What [t] returns when it does not recurse. *)
Definition finish (k : string) (val : value)
    (query : option TranslationQuery) : run value :=
  if instanceof_Object val
  then objectInterpolation val query config
  else
    s <- interpolation (as_text val) query config ;;
    Return (VStr (if s =? "" then k else s)).

(** [t], the call depth bounded by [fuel]; the result comes with the
    logger calls made on the way. *)
Fixpoint t_fuel (fuel : nat) (key : string)
    (query : option TranslationQuery) (opts : option options)
    : run (value * list LoggerProps) :=
  match fuel with
  | O => NoFuel
  | S fuel' =>
      let k := key in
      let val := lookup k query opts in
      let empty := is_empty val in
      let fallbacks := fallbacks_of opts in
      let log := logged k empty in
      match empty, fallbacks with
      | true, firstFallback :: restFallbacks =>
          r <- t_fuel fuel' firstFallback query
                 (with_fallback opts restFallbacks) ;;
          Return (fst r, (log ++ snd r)%list)
      | _, _ =>
          v <- finish k val query ;;
          Return (v, log)
      end
  end.

(** [t], with the fuel its fallback chain calls for. *)
Definition t (key : string) (query : option TranslationQuery)
    (opts : option options) : run (value * list LoggerProps) :=
  t_fuel (S (List.length (fallbacks_of opts))) key query opts.

(** The value [t] returns. *)
Definition resolve (key : string) (query : option TranslationQuery)
    (opts : option options) : run value :=
  r <- t key query opts ;; Return (fst r).

End Provider.

(** ** What a dictionary holds

    The reading of "the dictionary holds [v] at the dotted key": the
    segments of the key name own properties, one inside the other. *)

Fixpoint own_path (d : value) (segments : list string) : option value :=
  match segments with
  | [] => Some d
  | seg :: segments' =>
      match d with
      | VObj props =>
          match assoc seg props with
          | Some v => own_path v segments'
          | None => None
          end
      | _ => None
      end
  end.

Definition holds (d : value) (key : string) (v : value) : Prop :=
  own_path d (split_on "." key) = Some v.

(** ** Templates

    The reading of "a text with placeholders": literal stretches and
    placeholders [{{ name }}], the name possibly surrounded by
    whitespace inside the delimiters. *)

Inductive piece : Type :=
| Lit (s : string)
| Hole (blank_before name blank_after : string).

Definition render_piece (p : piece) : string :=
  match p with
  | Lit s => s
  | Hole w1 name w2 => "{{" ++ w1 ++ name ++ w2 ++ "}}"
  end.

Fixpoint render (tpl : list piece) : string :=
  match tpl with
  | [] => ""
  | p :: tpl' => render_piece p ++ render tpl'
  end.

(** A placeholder whose name is a key of the query becomes the string
    form of the value; any other piece stays as it is. *)
Definition fill (q : TranslationQuery) (p : piece) : piece :=
  match p with
  | Hole _ name _ =>
      match assoc name q with
      | Some v => Lit (qvalue_to_string v)
      | None => p
      end
  | Lit _ => p
  end.

Fixpoint all_chars (f : ascii -> bool) (s : string) : bool :=
  match s with
  | "" => true
  | String c s' => f c && all_chars f s'
  end.

Definition blank (s : string) : bool := all_chars whitespace s.

(** A name free of whitespace and braces. *)
Definition plain_name (s : string) : bool :=
  all_chars (fun c => negb (whitespace c) && negb (mem_ascii c "{}")) s.

(** A name that, pasted into a pattern, stands for itself. *)
Definition literal_name (s : string) : bool :=
  all_chars (fun c => negb (whitespace c) && negb (mem_ascii c syntax_set)) s.

(** A string without an opening brace. *)
Definition brace_free (s : string) : bool :=
  all_chars (fun c => negb (Ascii.eqb c "{")) s.

(** A string without a dollar sign. *)
Definition dollar_free (s : string) : bool :=
  all_chars (fun c => negb (Ascii.eqb c "$")) s.

Definition wf_piece (p : piece) : bool :=
  match p with
  | Lit s => brace_free s
  | Hole w1 name w2 => blank w1 && plain_name name && blank w2
  end.

Definition wf_template (tpl : list piece) : bool := forallb wf_piece tpl.

Definition wf_entry (e : string * qvalue) : bool :=
  literal_name (fst e)
  && brace_free (qvalue_to_string (snd e))
  && dollar_free (qvalue_to_string (snd e)).

Definition wf_query (q : TranslationQuery) : bool := forallb wf_entry q.

(** The text holds a placeholder of [name]. *)
Definition placeholder_in (name text : string) : Prop :=
  exists pre w1 w2 post,
    blank w1 = true /\ blank w2 = true /\
    text = pre ++ "{{" ++ w1 ++ name ++ w2 ++ "}}" ++ post.


(** The name inside the body of a placeholder: skip the whitespace,
    take the characters up to the next whitespace or brace. *)
Fixpoint drop_blank (s : string) : string :=
  match s with
  | String c s' => if whitespace c then drop_blank s' else s
  | "" => ""
  end.

Fixpoint take_plain (s : string) : string :=
  match s with
  | String c s' =>
      if negb (whitespace c) && negb (mem_ascii c "{}")
      then String c (take_plain s')
      else ""
  | "" => ""
  end.

Definition name_of (body : string) : string := take_plain (drop_blank body).

(** The pattern [interpolation] compiles for a literal name and the
    default delimiters. *)
Definition atoms_of (s : string) : list atom :=
  map Char (list_ascii_of_string s).

Definition name_pattern (name : string) : list atom :=
  ([Char "{"; Char "{"; WsStar] ++ atoms_of name
   ++ [WsStar; Char "}"; Char "}"])%list.

(** ** A sample provider *)

(** The members every object inherits from [Object.prototype]. *)
Definition object_prototype (_ : value) (k : string) : value :=
  if existsb (String.eqb k)
       ["constructor"; "hasOwnProperty"; "isPrototypeOf";
        "propertyIsEnumerable"; "toLocaleString"; "toString"; "valueOf";
        "__defineGetter__"; "__defineSetter__"; "__lookupGetter__";
        "__lookupSetter__"]
  then VFun k
  else if k =? "__proto__" then VObj []
  else VUndef.

Definition cfg0 : I18nConfig := mkConfig None.

Definition english (n : Z) : category :=
  if (n =? 1)%Z then one else other.

Definition common : value :=
  VObj [("greeting", VStr "Hello {{name}}");
        ("apples_1", VStr "one apple");
        ("apples_other", VStr "{{count}} apples");
        ("blank", VStr "");
        ("menu", VObj [("home", VStr "Home"); ("about", VStr "About {{name}}")])].

Definition fruit : value :=
  VObj [("pears_2", VStr "");
        ("pears_other", VStr "many pears");
        ("pears", VStr "a pear");
        ("plums_2", VStr "{{count}} plums");
        ("figs_other", VStr "");
        ("figs", VStr "a fig");
        ("kiwis_2", VObj [("label", VStr "two kiwis")]);
        ("kiwis_other", VStr "many kiwis");
        ("limes_2", VObj [("label", VStr "two limes")]);
        ("limes_other", VObj [("label", VStr "limes")]);
        ("limes", VStr "a lime")].

Definition ns0 : list (string * value) :=
  [("common", common); ("fruit", fruit)].

Definition t0 := t object_prototype ns0 english cfg0 true.
Definition resolve0 := resolve object_prototype ns0 english cfg0 true.
Definition lookup0 := lookup object_prototype ns0 english.
Definition plural0 := plural object_prototype english.

Definition fallback_k1_k2 : option options :=
  Some (mkOptions false (FbArray ["common:k1"; "common:k2"])).

Definition welcome : list piece :=
  [Lit "Hello "; Hole " " "name" " "; Lit ", you have ";
   Hole "" "n" ""; Lit " of "; Hole "" "total" ""].

(** ** Further readings used in the properties *)

(** The keys [t] hands to the navigator for a leaf and a query: the
    leaf itself and, when the query carries a count, the two keys
    [plural] probes. *)
Definition probed_keys (pluralRules : Z -> category) (leaf : option string)
    (query : option TranslationQuery) : list string :=
  key_or_default leaf ::
  match query with
  | Some q =>
      match query_count q with
      | Some count => [numKey leaf count; pluralKey pluralRules leaf count]
      | None => []
      end
  | None => []
  end.

Definition colon_free (s : string) : bool :=
  all_chars (fun c => negb (Ascii.eqb c ":")) s.

Definition line_free (s : string) : bool :=
  all_chars (fun c => negb (line_terminator c)) s.

(** The text is empty or begins with a line terminator. *)
Definition line_end (s : string) : bool :=
  match s with
  | "" => true
  | String c _ => line_terminator c
  end.

(** Every string property of an object, at any depth, rewritten by [f];
    the object keeps its keys and its other values. *)
Fixpoint map_leaves (f : string -> string) (v : value) : value :=
  match v with
  | VObj props =>
      VObj (map (fun kv : string * value =>
                   let (k, x) := kv in
                   (k, match x with
                       | VStr s => VStr (f s)
                       | inner => map_leaves f inner
                       end)) props)
  | _ => v
  end.

(** The key of a fallback chain whose value [t] ends with: the first key
    that does not come out empty, the last key when all do. *)
Fixpoint pick (empty_key : string -> bool) (chain : list string)
    (key : string) : string :=
  match chain with
  | [] => key
  | firstFallback :: restFallbacks =>
      if empty_key key
      then pick empty_key restFallbacks firstFallback
      else key
  end.

(** The keys that came out empty on the way. *)
Fixpoint tried (empty_key : string -> bool) (chain : list string)
    (key : string) : list string :=
  if empty_key key
  then key :: match chain with
              | [] => []
              | firstFallback :: restFallbacks =>
                  tried empty_key restFallbacks firstFallback
              end
  else [].

(** [{ namespace, i18nKey }] as [t] passes it to the logger. *)
Definition props_of (key : string) : LoggerProps :=
  let (namespace, i18nKey) := split_key key in
  mkLoggerProps namespace i18nKey.

(** ** The default logger *)

(** The double quote. *)
Definition dquote : string := String "034" "".

(** [missingKeyLogger]: the texts handed to [console.warn];
    [production] stands for [process.env.NODE_ENV === 'production']. *)
Definition missingKeyLogger (production : bool) (props : LoggerProps)
    : list string :=
  if production then []
  else
    match i18nKey props with
    | None | Some "" =>
        ["[next-translate] The text " ++ dquote ++ namespace props ++ dquote
         ++ " has no namespace in front of it."]
    | Some i18nKey =>
        ["[next-translate] " ++ dquote ++ namespace props ++ ":" ++ i18nKey
         ++ dquote ++ " is missing in current namespace configuration."
         ++ " Try adding " ++ dquote ++ i18nKey ++ dquote
         ++ " to the namespace " ++ dquote ++ namespace props ++ dquote
         ++ "."]
    end.

(** ** The namespaces of a provider

    [{ ...ns, ...namespaces }]: the properties of [ns], then those of
    [namespaces], defined one after the other on a fresh object. *)

(** An array index: a canonical numeric string below [2^32 - 1].  The
    keys that are array indices come first in [Object.keys], in
    ascending order. *)
Definition array_index (k : string) : option N :=
  match NilZero.uint_of_string k with
  | Some d =>
      let n := N.of_uint d in
      if (NilZero.string_of_uint (N.to_uint n) =? k) && (n <? 4294967295)%N
      then Some n
      else None
  | None => None
  end.

(** Overwrite the value of a property the object has; its place among
    the keys stays. *)
Fixpoint set_existing {A : Type} (k : string) (v : A)
    (props : list (string * A)) : list (string * A) :=
  match props with
  | [] => []
  | (k', x) :: ps =>
      if k =? k' then (k', v) :: ps else (k', x) :: set_existing k v ps
  end.

(** Add a property whose key is the array index [n]: after the smaller
    indices, before the larger ones and the other keys. *)
Fixpoint insert_index {A : Type} (n : N) (k : string) (v : A)
    (props : list (string * A)) : list (string * A) :=
  match props with
  | [] => [(k, v)]
  | (k', x) :: ps =>
      match array_index k' with
      | Some m =>
          if (m <? n)%N then (k', x) :: insert_index n k v ps
          else (k, v) :: (k', x) :: ps
      | None => (k, v) :: (k', x) :: ps
      end
  end.

(** Define the property [k] of an object. *)
Definition define_own {A : Type} (props : list (string * A)) (k : string)
    (v : A) : list (string * A) :=
  match assoc k props with
  | Some _ => set_existing k v props
  | None =>
      match array_index k with
      | Some n => insert_index n k v props
      | None => (props ++ [(k, v)])%list
      end
  end.

(** [{ ...target, ...source }], [target] being fresh. *)
Definition spread (target source : list (string * value))
    : list (string * value) :=
  fold_left
    (fun acc k =>
       define_own acc k
         (match assoc k source with Some v => v | None => VUndef end))
    (map fst source) target.

(** [allNamespaces] of a provider that receives [namespaces] inside a
    provider whose namespaces are [ns]. *)
Definition provider_namespaces (ns namespaces : list (string * value))
    : list (string * value) :=
  spread (spread [] ns) namespaces.

Definition dot_free (s : string) : bool :=
  all_chars (fun c => negb (Ascii.eqb c ".")) s.

Definition digit (c : ascii) : bool := mem_ascii c "0123456789".

(** ** More samples *)



Definition menu : value :=
  VObj [("home", VStr "Home"); ("about", VStr "About {{name}}")].

Definition ana : TranslationQuery := [("name", QStr "Ana")].

(** What the query [ana] makes of a text. *)
Definition with_ana (s : string) : string :=
  match s with
  | "" => ""
  | _ => replace_all (name_pattern "name") "Ana" s
  end.

(** * Properties *)

(** ** Induction on values *)

Lemma value_ind_nested (P : value -> Prop)
  (Hundef : P VUndef) (Hnull : P VNull)
  (Hbool : forall b, P (VBool b)) (Hnum : forall n, P (VNum n))
  (Hstr : forall s, P (VStr s))
  (Hobj : forall props, Forall (fun kv => P (snd kv)) props -> P (VObj props))
  (Hfun : forall name, P (VFun name)) :
  forall v, P v.
Proof.
  fix IH 1. intros [ | | b | n | s | props | name ].
  - exact Hundef.
  - exact Hnull.
  - apply Hbool.
  - apply Hnum.
  - apply Hstr.
  - apply Hobj.
    induction props as [|[k v] props IHprops]; constructor.
    + apply IH.
    + exact IHprops.
  - apply Hfun.
Qed.

(** ** Strings *)

Lemma append_nil_r s : s ++ "" = s.
Proof. induction s as [|c s IH]; simpl; [|rewrite IH]; reflexivity. Qed.

Lemma append_assoc s1 s2 s3 : (s1 ++ s2) ++ s3 = s1 ++ s2 ++ s3.
Proof. induction s1 as [|c s1 IH]; simpl; [|rewrite IH]; reflexivity. Qed.

Lemma length_append s1 s2 :
  String.length (s1 ++ s2) = String.length s1 + String.length s2.
Proof. induction s1 as [|c s1 IH]; simpl; [|rewrite IH]; reflexivity. Qed.

(** Two ways of cutting one string: one cut is inside the first part of
    the other. *)
Lemma append_eq_append a b c d :
  a ++ b = c ++ d ->
  (exists e, c = a ++ e /\ b = e ++ d)
  \/ (exists x e, a = c ++ String x e /\ d = String x e ++ b).
Proof.
  revert c. induction a as [|x a IH]; intros c H; simpl in H.
  - left. exists c. split; [reflexivity | exact H].
  - destruct c as [|y c]; simpl in H.
    + right. exists x, a. split; [reflexivity | now rewrite <- H].
    + injection H as -> H.
      destruct (IH c H) as [[e [-> ->]] | [x' [e [-> ->]]]].
      * left. exists e. split; reflexivity.
      * right. exists x', e. split; reflexivity.
Qed.

Lemma all_chars_append f s1 s2 :
  all_chars f (s1 ++ s2) = all_chars f s1 && all_chars f s2.
Proof.
  induction s1 as [|c s1 IH]; simpl; [reflexivity|].
  now rewrite IH, andb_assoc.
Qed.

Lemma all_chars_weaken (f g : ascii -> bool) s :
  (forall c, f c = true -> g c = true) ->
  all_chars f s = true -> all_chars g s = true.
Proof.
  intros Hfg. induction s as [|c s IH]; simpl; [reflexivity|].
  intros H. apply andb_true_iff in H as [Hc Hs].
  now rewrite (Hfg c Hc), IH.
Qed.

(** ** Patterns and matches *)

#[local] Arguments Ascii.eqb : simpl nomatch.

Lemma literal_name_plain s : literal_name s = true -> plain_name s = true.
Proof.
  apply all_chars_weaken. intros c H.
  apply andb_true_iff in H as [Hw Hs]. rewrite Hw. simpl.
  apply negb_true_iff in Hs. apply negb_true_iff.
  unfold mem_ascii in *. simpl in *.
  repeat (apply orb_false_iff in Hs as [? Hs]).
  repeat (apply orb_false_iff; split); auto.
Qed.

Lemma compile_literal k r :
  literal_name k = true ->
  compile (k ++ r) = option_map (app (atoms_of k)) (compile r).
Proof.
  induction k as [|c k IH]; intros H.
  - simpl. now destruct (compile r).
  - simpl in H. apply andb_true_iff in H as [Hc Hk].
    apply andb_true_iff in Hc as [_ Hc]. apply negb_true_iff in Hc.
    assert (Hbs : Ascii.eqb c "\" = false).
    { unfold mem_ascii in Hc. simpl in Hc.
      now apply orb_false_iff in Hc as [Hc _]. }
    simpl. rewrite Hbs, Hc, (IH Hk).
    now destruct (compile r).
Qed.

Lemma compile_name_pattern k :
  literal_name k = true ->
  compile (pattern_source "{{" k "}}") = Some (name_pattern k).
Proof.
  intros H. unfold pattern_source.
  change (compile (escapeRegex "{{" ++ "\s*" ++ k ++ "\s*" ++ escapeRegex "}}"))
    with (option_map (cons (Char "{"))
           (option_map (cons (Char "{"))
             (option_map (cons WsStar) (compile (k ++ "\s*\}\}"))))).
  rewrite (compile_literal _ _ H). reflexivity.
Qed.

Lemma match_atoms_of l p s :
  match_atoms (atoms_of l ++ p) (l ++ s)
  = option_map (Nat.add (String.length l)) (match_atoms p s).
Proof.
  induction l as [|c l IH]; simpl.
  - now destruct (match_atoms p s).
  - unfold atoms_of in IH. rewrite Ascii.eqb_refl, IH.
    now destruct (match_atoms p s).
Qed.

Lemma match_atoms_of_inv l p s n :
  match_atoms (atoms_of l ++ p) s = Some n ->
  exists s' m,
    s = l ++ s' /\ match_atoms p s' = Some m /\ n = String.length l + m.
Proof.
  revert s n. induction l as [|c l IH]; intros s n H.
  - exists s, n. auto.
  - simpl in H. destruct s as [|d s]; [discriminate|].
    destruct (Ascii.eqb c d) eqn:Hcd; [|discriminate].
    apply Ascii.eqb_eq in Hcd. subst d.
    fold (atoms_of l) in H.
    destruct (match_atoms (atoms_of l ++ p) s) as [n'|] eqn:Hn;
      [|discriminate].
    injection H as <-.
    destruct (IH _ _ Hn) as (s' & m & -> & Hm & ->).
    exists s', m. auto.
Qed.

Lemma ws_star_inv k s n :
  ws_star k s = Some n ->
  exists w s' m,
    s = w ++ s' /\ blank w = true /\ k s' = Some m
    /\ n = String.length w + m.
Proof.
  revert n. induction s as [|c s IH]; intros n H; simpl in H.
  - exists "", "", n. auto.
  - destruct (whitespace c) eqn:Hc.
    + destruct (ws_star k s) as [n'|] eqn:Hn.
      * injection H as <-.
        destruct (IH _ eq_refl) as (w & s' & m & -> & Hw & Hm & ->).
        exists (String c w), s', m. simpl. unfold blank in *. simpl.
        now rewrite Hc, Hw.
      * exists "", (String c s), n. auto.
    + exists "", (String c s), n. auto.
Qed.

Lemma ws_star_blank k w s m :
  blank w = true ->
  ws_star k s = Some m ->
  ws_star k (w ++ s) = Some (String.length w + m).
Proof.
  intros Hw Hs. induction w as [|c w IH]; simpl; [exact Hs|].
  unfold blank in Hw. simpl in Hw. apply andb_true_iff in Hw as [Hc Hw].
  now rewrite Hc, (IH Hw).
Qed.

Lemma ws_star_stop k c s :
  whitespace c = false -> ws_star k (String c s) = k (String c s).
Proof. intros H. simpl. now rewrite H. Qed.

Lemma match_name_pattern_inv x s n :
  match_atoms (name_pattern x) s = Some n ->
  exists w1 w2 post,
    blank w1 = true /\ blank w2 = true
    /\ s = "{{" ++ w1 ++ x ++ w2 ++ "}}" ++ post.
Proof.
  unfold name_pattern. intros H.
  destruct s as [|a [|b s]]; simpl in H; try discriminate.
  { destruct (Ascii.eqb "{" a); discriminate. }
  destruct (Ascii.eqb "{" a) eqn:Ha; [|discriminate].
  destruct (Ascii.eqb "{" b) eqn:Hb; [|discriminate].
  apply Ascii.eqb_eq in Ha, Hb. subst a b.
  destruct (ws_star _ s) as [n1|] eqn:H1; [|discriminate].
  apply ws_star_inv in H1 as (w1 & s1 & m1 & -> & Hw1 & H1 & _).
  apply match_atoms_of_inv in H1 as (s2 & m2 & -> & H2 & _).
  simpl in H2.
  apply ws_star_inv in H2 as (w2 & s3 & m3 & -> & Hw2 & H3 & _).
  destruct s3 as [|a [|b post]]; simpl in H3; try discriminate.
  { destruct (Ascii.eqb "}" a); discriminate. }
  destruct (Ascii.eqb "}" a) eqn:Ha; [|discriminate].
  destruct (Ascii.eqb "}" b) eqn:Hb; [|discriminate].
  apply Ascii.eqb_eq in Ha, Hb. subst a b.
  exists w1, w2, post. auto.
Qed.

Lemma match_name_pattern_hole x w1 w2 post :
  plain_name x = true -> blank w1 = true -> blank w2 = true ->
  match_atoms (name_pattern x) ("{{" ++ w1 ++ x ++ w2 ++ "}}" ++ post)
  = Some (String.length ("{{" ++ w1 ++ x ++ w2 ++ "}}")).
Proof.
  intros Hx Hw1 Hw2.
  set (close := match_atoms [Char "}"; Char "}"]).
  assert (Htail : ws_star close (w2 ++ "}}" ++ post)
                  = Some (String.length w2 + 2)).
  { apply ws_star_blank; [exact Hw2 | reflexivity]. }
  assert (Hmid : ws_star (match_atoms (atoms_of x ++ [WsStar; Char "}"; Char "}"]))
                   (x ++ w2 ++ "}}" ++ post)
                 = Some (String.length x + (String.length w2 + 2))).
  { destruct x as [|c x].
    - exact (ws_star_blank (match_atoms [WsStar; Char "}"; Char "}"])
               w2 ("}}" ++ post) 2 Hw2 eq_refl).
    - unfold plain_name in Hx. simpl in Hx.
      apply andb_true_iff in Hx as [Hc _].
      apply andb_true_iff in Hc as [Hc _]. apply negb_true_iff in Hc.
      change (String c x ++ w2 ++ "}}" ++ post)
        with (String c (x ++ w2 ++ "}}" ++ post)).
      rewrite (ws_star_stop _ _ _ Hc).
      change (String c (x ++ w2 ++ "}}" ++ post))
        with (String c x ++ w2 ++ "}}" ++ post).
      rewrite match_atoms_of.
      change (match_atoms [WsStar; Char "}"; Char "}"] (w2 ++ "}}" ++ post))
        with (ws_star close (w2 ++ "}}" ++ post)).
      now rewrite Htail. }
  unfold name_pattern.
  change (match_atoms ([Char "{"; Char "{"; WsStar] ++ atoms_of x
                       ++ [WsStar; Char "}"; Char "}"])
            ("{{" ++ w1 ++ x ++ w2 ++ "}}" ++ post))
    with (option_map S (option_map S
            (ws_star (match_atoms (atoms_of x ++ [WsStar; Char "}"; Char "}"]))
               (w1 ++ x ++ w2 ++ "}}" ++ post)))).
  rewrite (ws_star_blank _ _ _ _ Hw1 Hmid). simpl.
  rewrite !length_append. reflexivity.
Qed.

Lemma drop_blank_append w s :
  blank w = true -> drop_blank (w ++ s) = drop_blank s.
Proof.
  induction w as [|c w IH]; simpl; [reflexivity|].
  unfold blank. simpl. intros H. apply andb_true_iff in H as [Hc Hw].
  rewrite Hc. now apply IH.
Qed.

Lemma take_plain_append n s :
  plain_name n = true -> take_plain (n ++ s) = n ++ take_plain s.
Proof.
  induction n as [|c n IH]; simpl; [reflexivity|].
  unfold plain_name. simpl. intros H. apply andb_true_iff in H as [Hc Hn].
  rewrite Hc. f_equal. now apply IH.
Qed.

Lemma name_of_body w1 n w2 post :
  blank w1 = true -> plain_name n = true -> blank w2 = true ->
  name_of (w1 ++ n ++ w2 ++ "}}" ++ post) = n.
Proof.
  intros Hw1 Hn Hw2. unfold name_of.
  rewrite (drop_blank_append _ _ Hw1).
  assert (Hclose : take_plain (drop_blank (w2 ++ "}}" ++ post)) = ""
                   /\ take_plain (w2 ++ "}}" ++ post) = "").
  { rewrite (drop_blank_append _ _ Hw2). split; [reflexivity|].
    destruct w2 as [|c w2]; [reflexivity|].
    unfold blank in Hw2. simpl in Hw2. apply andb_true_iff in Hw2 as [Hc _].
    simpl. now rewrite Hc. }
  destruct n as [|c n]; [apply Hclose|].
  assert (Hc : whitespace c = false).
  { unfold plain_name in Hn. simpl in Hn.
    apply andb_true_iff in Hn as [Hc _].
    apply andb_true_iff in Hc as [Hc _]. now apply negb_true_iff in Hc. }
  change (drop_blank (String c n ++ w2 ++ "}}" ++ post))
    with (if whitespace c then drop_blank (n ++ w2 ++ "}}" ++ post)
          else String c n ++ w2 ++ "}}" ++ post).
  rewrite Hc, (take_plain_append _ _ Hn).
  destruct Hclose as [_ ->]. apply append_nil_r.
Qed.

(** At the start of a placeholder of another name the pattern fails. *)
Lemma match_other_hole x y w1 w2 post :
  plain_name x = true -> plain_name y = true ->
  blank w1 = true -> blank w2 = true ->
  x <> y ->
  match_atoms (name_pattern x) ("{{" ++ w1 ++ y ++ w2 ++ "}}" ++ post) = None.
Proof.
  intros Hx Hy Hw1 Hw2 Hxy.
  destruct (match_atoms _ _) as [n|] eqn:Hm; [|reflexivity].
  apply match_name_pattern_inv in Hm
    as (w1' & w2' & post' & Hw1' & Hw2' & Heq).
  assert (Hbody : w1 ++ y ++ w2 ++ "}}" ++ post
                  = w1' ++ x ++ w2' ++ "}}" ++ post').
  { injection Heq as Heq. exact Heq. }
  apply (f_equal name_of) in Hbody.
  rewrite !name_of_body in Hbody by assumption.
  congruence.
Qed.

Lemma not_open_no_match x d s :
  Ascii.eqb d "{" = false -> match_atoms (name_pattern x) (String d s) = None.
Proof.
  intros H. unfold name_pattern. simpl.
  now rewrite Ascii.eqb_sym, H.
Qed.

Lemma one_open_no_match x d s :
  Ascii.eqb d "{" = false ->
  match_atoms (name_pattern x) (String "{" (String d s)) = None.
Proof.
  intros H. unfold name_pattern. simpl.
  now rewrite (Ascii.eqb_sym "{" d), H.
Qed.

Lemma blank_brace_free w : blank w = true -> brace_free w = true.
Proof.
  apply all_chars_weaken. intros c Hc.
  destruct (Ascii.eqb c "{") eqn:E; [|reflexivity].
  apply Ascii.eqb_eq in E. subst c. discriminate.
Qed.

Lemma plain_name_brace_free n : plain_name n = true -> brace_free n = true.
Proof.
  apply all_chars_weaken. intros c Hc.
  apply andb_true_iff in Hc as [_ Hc]. apply negb_true_iff in Hc.
  unfold mem_ascii in Hc. simpl in Hc.
  apply orb_false_iff in Hc as [Hc _]. now rewrite Hc.
Qed.

Lemma brace_free_head d s :
  brace_free (String d s) = true -> Ascii.eqb d "{" = false.
Proof.
  unfold brace_free. simpl. intros H.
  apply andb_true_iff in H as [H _]. now apply negb_true_iff in H.
Qed.

(** ** Replacement *)

Lemma expand_dollar_free matched before after repl :
  dollar_free repl = true -> expand matched before after repl = repl.
Proof.
  induction repl as [|c r IH]; simpl; [reflexivity|].
  unfold dollar_free. simpl. intros H. apply andb_true_iff in H as [Hc Hr].
  apply negb_true_iff in Hc. rewrite Hc. f_equal. now apply IH.
Qed.

(** A stretch in which the pattern matches nowhere is copied. *)
Lemma replace_from_copy p repl l rest before :
  (forall l1 l2, l = l1 ++ l2 -> l2 <> "" ->
     match_atoms p (l2 ++ rest) = None) ->
  replace_from p repl before (l ++ rest) 0
  = l ++ replace_from p repl (before ++ l) rest 0.
Proof.
  revert before. induction l as [|c l IH]; intros before H.
  - simpl. now rewrite append_nil_r.
  - simpl.
    assert (Hc : match_atoms p (String c (l ++ rest)) = None).
    { apply (H "" (String c l)); [reflexivity | discriminate]. }
    rewrite Hc. f_equal.
    rewrite IH, append_assoc; [reflexivity|].
    intros l1 l2 -> Hl2. apply (H (String c l1) l2); [reflexivity | exact Hl2].
Qed.

Lemma replace_from_skip p repl m rest before :
  replace_from p repl before (m ++ rest) (String.length m)
  = replace_from p repl (before ++ m) rest 0.
Proof.
  revert before. induction m as [|c m IH]; intros before; simpl.
  - now rewrite append_nil_r.
  - now rewrite IH, append_assoc.
Qed.

(** A match that spans [m] is replaced as a whole. *)
Lemma replace_from_match p repl c m rest before :
  dollar_free repl = true ->
  match_atoms p (String c m ++ rest) = Some (String.length (String c m)) ->
  replace_from p repl before (String c m ++ rest) 0
  = repl ++ replace_from p repl (before ++ String c m) rest 0.
Proof.
  intros Hrepl Hm.
  change (replace_from p repl before (String c m ++ rest) 0)
    with (match match_atoms p (String c m ++ rest) with
          | Some n =>
              expand (substring 0 n (String c m ++ rest)) before
                (skipn_string n (String c m ++ rest)) repl ++
              match n with
              | O => String c (replace_from p repl (before ++ String c "")
                                 (m ++ rest) 0)
              | S n' => replace_from p repl (before ++ String c "")
                          (m ++ rest) n'
              end
          | None =>
              String c (replace_from p repl (before ++ String c "")
                          (m ++ rest) 0)
          end).
  change (String.length (String c m)) with (S (String.length m)) in Hm.
  rewrite Hm. cbv iota beta.
  rewrite (expand_dollar_free _ _ _ _ Hrepl). f_equal.
  now rewrite replace_from_skip, append_assoc.
Qed.

(** Inside a piece that is not a placeholder of [x] the pattern of [x]
    matches nowhere. *)
Lemma piece_no_match x p rest :
  wf_piece p = true ->
  plain_name x = true ->
  (forall w1 w2, p <> Hole w1 x w2) ->
  forall l1 l2, render_piece p = l1 ++ l2 -> l2 <> "" ->
    match_atoms (name_pattern x) (l2 ++ rest) = None.
Proof.
  intros Hwf Hx Hp l1 l2 Hcut Hl2.
  destruct l2 as [|d l2]; [congruence|]. clear Hl2.
  destruct p as [s | w1 y w2]; simpl in Hwf; cbn [render_piece] in Hcut.
  - apply not_open_no_match.
    rewrite Hcut in Hwf. unfold brace_free in Hwf.
    rewrite all_chars_append in Hwf. apply andb_true_iff in Hwf as [_ Hwf].
    now apply brace_free_head in Hwf.
  - apply andb_true_iff in Hwf as [Hwf Hw2].
    apply andb_true_iff in Hwf as [Hw1 Hy].
    assert (Hbody : brace_free (w1 ++ y ++ w2 ++ "}}") = true).
    { unfold brace_free. rewrite !all_chars_append.
      fold (brace_free w1) (brace_free y) (brace_free w2).
      rewrite (blank_brace_free _ Hw1), (plain_name_brace_free _ Hy),
        (blank_brace_free _ Hw2). reflexivity. }
    destruct l1 as [|a [|b l1]].
    + change (String d l2) with ("" ++ String d l2).
      rewrite <- Hcut, !append_assoc.
      apply match_other_hole; try assumption.
      intros ->. now apply (Hp w1 w2).
    + simpl in Hcut. injection Hcut as <- <- Hcut. subst l2.
      destruct (w1 ++ y ++ w2 ++ "}}") as [|e body] eqn:E.
      * destruct w1, y, w2; discriminate.
      * change (String "{" (String e body) ++ rest)
          with (String "{" (String e (body ++ rest))).
        apply one_open_no_match. now apply brace_free_head in Hbody.
    + simpl in Hcut. injection Hcut as _ _ Hcut.
      rewrite Hcut in Hbody. unfold brace_free in Hbody.
      rewrite all_chars_append in Hbody.
      apply andb_true_iff in Hbody as [_ Hbody].
      apply not_open_no_match. now apply brace_free_head in Hbody.
Qed.

(** ** Interpolation of a template *)

Lemma fill_one_hole x v w1 n w2 :
  fill [(x, v)] (Hole w1 n w2)
  = if n =? x then Lit (qvalue_to_string v) else Hole w1 n w2.
Proof. simpl. now destruct (n =? x). Qed.

(** One pass over a template: the placeholders of [x] become the
    replacement, everything else is copied. *)
Lemma replace_from_render x v tpl before :
  wf_template tpl = true ->
  plain_name x = true ->
  dollar_free (qvalue_to_string v) = true ->
  replace_from (name_pattern x) (qvalue_to_string v) before (render tpl) 0
  = render (map (fill [(x, v)]) tpl).
Proof.
  intros Hwf Hx Hv. revert before.
  induction tpl as [|p tpl IH]; intros before; [reflexivity|].
  simpl in Hwf. apply andb_true_iff in Hwf as [Hp Htpl].
  cbn [render map].
  assert (Hcopy : (forall w1 w2, p <> Hole w1 x w2) ->
            replace_from (name_pattern x) (qvalue_to_string v) before
              (render_piece p ++ render tpl) 0
            = render_piece (fill [(x, v)] p)
              ++ render (map (fill [(x, v)]) tpl)).
  { intros Hne.
    rewrite replace_from_copy by (now apply piece_no_match).
    rewrite (IH Htpl). f_equal.
    destruct p as [s | w1 n w2]; [reflexivity|].
    rewrite fill_one_hole.
    destruct (String.eqb_spec n x) as [-> | _]; [|reflexivity].
    now destruct (Hne w1 w2). }
  destruct p as [s | w1 n w2]; [apply Hcopy; discriminate|].
  destruct (String.eqb_spec n x) as [-> | Hn].
  - rewrite fill_one_hole, String.eqb_refl. cbn [render_piece].
    simpl in Hp. apply andb_true_iff in Hp as [Hp Hw2].
    apply andb_true_iff in Hp as [Hw1 _].
    pose proof (match_name_pattern_hole x w1 w2 (render tpl) Hx Hw1 Hw2)
      as Hm.
    rewrite <- !append_assoc in Hm. rewrite !append_assoc in Hm.
    change ("{{" ++ w1 ++ x ++ w2 ++ "}}")
      with (String "{" ("{" ++ w1 ++ x ++ w2 ++ "}}")) in *.
    rewrite <- (IH Htpl (before ++ String "{" ("{" ++ w1 ++ x ++ w2 ++ "}}"))).
    apply replace_from_match; [exact Hv|].
    rewrite <- Hm. f_equal. simpl. now rewrite !append_assoc.
  - apply Hcopy. intros w1' w2' H. injection H as _ H _. contradiction.
Qed.

Lemma fill_nil p : fill [] p = p.
Proof. now destruct p. Qed.

Lemma fill_cons x v q p :
  fill q (fill [(x, v)] p) = fill ((x, v) :: q) p.
Proof.
  destruct p as [s | w1 n w2]; [reflexivity|].
  rewrite fill_one_hole. simpl. now destruct (n =? x).
Qed.

Lemma wf_fill q tpl :
  wf_query q = true -> wf_template tpl = true ->
  wf_template (map (fill q) tpl) = true.
Proof.
  intros Hq. induction tpl as [|p tpl IH]; [reflexivity|].
  simpl. intros H. apply andb_true_iff in H as [Hp Htpl].
  rewrite (IH Htpl), andb_true_r.
  destruct p as [s | w1 n w2]; [exact Hp|]. simpl.
  destruct (assoc n q) as [v|] eqn:Hn; [|exact Hp]. simpl.
  clear - Hq Hn. induction q as [|[k v'] q IHq]; [discriminate|].
  simpl in Hq, Hn. apply andb_true_iff in Hq as [He Hq].
  destruct (n =? k); [|now apply IHq].
  injection Hn as <-. unfold wf_entry in He. simpl in He.
  apply andb_true_iff in He as [He _].
  now apply andb_true_iff in He as [_ He].
Qed.

Lemma reduce_keys_render config q tpl :
  delimiters config = ("{{", "}}") ->
  wf_query q = true ->
  wf_template tpl = true ->
  reduce_keys config q (render tpl) = Return (render (map (fill q) tpl)).
Proof.
  intros Hcfg. revert tpl.
  induction q as [|[x v] q IH]; intros tpl Hq Htpl.
  - simpl. f_equal. f_equal. induction tpl as [|p tpl IHt]; [reflexivity|].
    simpl in *. apply andb_true_iff in Htpl as [_ Htpl].
    now rewrite fill_nil, <- IHt.
  - simpl in Hq. apply andb_true_iff in Hq as [He Hq].
    unfold wf_entry in He. simpl in He.
    apply andb_true_iff in He as [He Hdollar].
    apply andb_true_iff in He as [Hx Hbrace].
    cbn [reduce_keys]. unfold replace_key. rewrite Hcfg.
    rewrite (compile_name_pattern _ Hx). cbn [bind].
    unfold replace_all.
    rewrite replace_from_render;
      [| exact Htpl | now apply literal_name_plain | exact Hdollar].
    rewrite IH; [| exact Hq |].
    + rewrite map_map. do 2 f_equal.
      apply map_ext. intros p. apply fill_cons.
    + apply wf_fill; [|exact Htpl].
      simpl. unfold wf_entry. simpl. now rewrite Hx, Hbrace, Hdollar.
Qed.

Lemma render_empty q tpl : render tpl = "" -> map (fill q) tpl = tpl.
Proof.
  induction tpl as [|p tpl IH]; [reflexivity|].
  simpl. intros H.
  destruct p as [s | w1 n w2]; [|discriminate].
  simpl in H. destruct s; [|discriminate].
  simpl in H. now rewrite (IH H).
Qed.

(** In a template without a placeholder of [x] the pattern of [x]
    matches nowhere. *)
Lemma no_match_in_render x tpl :
  wf_template tpl = true ->
  plain_name x = true ->
  (forall w1 w2, ~ In (Hole w1 x w2) tpl) ->
  forall pre s, render tpl = pre ++ s ->
    match_atoms (name_pattern x) s = None.
Proof.
  intros Hwf Hx. induction tpl as [|p tpl IH]; intros Hno pre s Hcut.
  - destruct pre; [|discriminate]. simpl in Hcut. now subst s.
  - simpl in Hwf. apply andb_true_iff in Hwf as [Hp Htpl].
    simpl in Hcut.
    destruct (append_eq_append _ _ _ _ Hcut)
      as [(e & -> & He) | (d & e & Hpiece & ->)].
    + apply (IH Htpl) with (pre := e); [|exact He].
      intros w1 w2 H. apply (Hno w1 w2). now right.
    + apply (piece_no_match x p (render tpl) Hp Hx) with (l1 := pre);
        [| exact Hpiece | discriminate].
      intros w1 w2 ->. apply (Hno w1 w2). now left.
Qed.

Lemma no_placeholder_in_render x tpl :
  wf_template tpl = true ->
  plain_name x = true ->
  (forall w1 w2, ~ In (Hole w1 x w2) tpl) ->
  ~ placeholder_in x (render tpl).
Proof.
  intros Hwf Hx Hno (pre & w1 & w2 & post & Hw1 & Hw2 & Heq).
  pose proof (no_match_in_render x tpl Hwf Hx Hno pre _ Heq) as Hnone.
  rewrite (match_name_pattern_hole x w1 w2 post Hx Hw1 Hw2) in Hnone.
  discriminate.
Qed.

Lemma assoc_key_in {A} x (q : list (string * A)) :
  In x (map fst q) -> assoc x q <> None.
Proof.
  induction q as [|[k v] q IH]; simpl; [tauto|].
  intros [-> | H].
  - now rewrite String.eqb_refl.
  - destruct (x =? k); [discriminate | now apply IH].
Qed.

Lemma wf_query_key x q :
  wf_query q = true -> In x (map fst q) -> literal_name x = true.
Proof.
  induction q as [|[k v] q IH]; simpl; [tauto|].
  intros H [-> | Hin]; apply andb_true_iff in H as [He Hq].
  - unfold wf_entry in He. simpl in He.
    apply andb_true_iff in He as [He _].
    now apply andb_true_iff in He as [He _].
  - now apply IH.
Qed.

(** C6 (amended): for a text made of stretches without an opening
    brace and of placeholders whose names have neither whitespace nor
    braces, and a query whose names stand for themselves in a pattern
    and whose values have neither an opening brace nor a dollar sign,
    [interpolation] with the default delimiters replaces each
    placeholder whose name is a key of the query by the string form of
    the value and leaves every other placeholder as it is; no
    placeholder of a key of the query is left in the output. *)
Theorem interpolation_fills_template config q tpl :
  delimiters config = ("{{", "}}") ->
  wf_query q = true ->
  wf_template tpl = true ->
  interpolation (Some (render tpl)) (Some q) config
  = Return (render (map (fill q) tpl))
  /\ forall x, In x (map fst q) ->
       ~ placeholder_in x (render (map (fill q) tpl)).
Proof.
  intros Hcfg Hq Htpl. split.
  - destruct (render tpl) as [|c txt] eqn:Htext.
    + simpl. now rewrite (render_empty q tpl Htext), Htext.
    + cbn [interpolation]. rewrite <- Htext.
      now apply reduce_keys_render.
  - intros x Hx.
    apply no_placeholder_in_render.
    + now apply wf_fill.
    + apply literal_name_plain. now apply (wf_query_key x q).
    + intros w1 w2 Hin. apply in_map_iff in Hin as (p & Hp & _).
      destruct p as [s | w1' n w2']; [discriminate|]. simpl in Hp.
      destruct (assoc n q) eqn:Hn; [discriminate|].
      injection Hp as _ -> _.
      now apply (assoc_key_in x q Hx).
Qed.







(** ** The navigator on own paths *)

Lemma split_on_nonempty sep s : split_on sep s <> [].
Proof.
  destruct s as [|c s]; simpl; [discriminate|].
  destruct (Ascii.eqb c sep); [discriminate|].
  destruct (split_on sep s); discriminate.
Qed.

Lemma or_empty_truthy v : truthy v = true -> or_empty v = v.
Proof. unfold or_empty. intros ->. reflexivity. Qed.

Lemma or_empty_not_string v :
  truthy v = false \/ is_string v = false -> is_string (or_empty v) = false.
Proof. unfold or_empty. intros [-> | H]; [reflexivity|]. now destruct (truthy v). Qed.

Section NavigatorFacts.

Variable inherited : value -> string -> value.

Local Abbreviation get := (get inherited).
Local Abbreviation step := (step inherited).
Local Abbreviation walk := (walk inherited).
Local Abbreviation getDicValue := (getDicValue inherited).

(** Along an own path the fold meets the values the dictionary holds;
    only the last of them can be falsy. *)
Lemma walk_own_path d segments v :
  segments <> [] ->
  own_path d segments = Some v ->
  walk d segments = or_empty v.
Proof.
  revert d. induction segments as [|seg segments IH]; [congruence|].
  intros d _ H. simpl in H.
  destruct d as [ | | | | | props | ]; try discriminate.
  destruct (assoc seg props) as [v1|] eqn:Hseg; [|discriminate].
  assert (Hstep : step (VObj props) seg = or_empty v1).
  { unfold step, get. now rewrite Hseg. }
  destruct segments as [|seg2 segments].
  - simpl in H. injection H as ->. unfold walk. simpl. exact Hstep.
  - unfold walk. simpl fold_left. fold (step (VObj props) seg).
    rewrite Hstep.
    assert (Hv1 : or_empty v1 = v1).
    { apply or_empty_truthy. simpl in H. now destruct v1. }
    rewrite Hv1. apply IH; [discriminate | exact H].
Qed.

Lemma getDicValue_holds_string d key V opts :
  holds d key (VStr V) -> V <> "" ->
  getDicValue d (Some key) opts = VStr V.
Proof.
  intros H HV. unfold getDicValue. simpl key_or_default.
  rewrite (walk_own_path _ _ _ (split_on_nonempty _ _) H).
  rewrite or_empty_truthy; [reflexivity|].
  simpl. apply negb_true_iff, String.eqb_neq, HV.
Qed.

Lemma getDicValue_holds_empty_string d key opts :
  holds d key (VStr "") ->
  walk d (split_on "." key) = VObj []
  /\ getDicValue d (Some key) opts
     = if returnObjects_of opts then VObj [] else VUndef.
Proof.
  intros H. unfold getDicValue. simpl key_or_default.
  rewrite (walk_own_path _ _ _ (split_on_nonempty _ _) H).
  split; [reflexivity|]. simpl. now destruct (returnObjects_of opts).
Qed.

Lemma getDicValue_holds_not_string d key v opts :
  holds d key v -> is_string v = false -> returnObjects_of opts = false ->
  getDicValue d (Some key) opts = VUndef.
Proof.
  intros H Hv Hro. unfold getDicValue. simpl key_or_default.
  rewrite (walk_own_path _ _ _ (split_on_nonempty _ _) H).
  rewrite or_empty_not_string by (now right).
  rewrite Hro, andb_false_r. reflexivity.
Qed.

(** Without [returnObjects] the navigator yields a string or nothing. *)
Lemma getDicValue_strings_only d key opts :
  returnObjects_of opts = false ->
  getDicValue d key opts = VUndef
  \/ exists s, getDicValue d key opts = VStr s.
Proof.
  intros Hro. unfold getDicValue. rewrite Hro, andb_false_r, orb_false_r.
  destruct (walk d _); simpl; eauto.
Qed.

End NavigatorFacts.

(** ** The call depth of [t] *)

Lemma reduce_keys_no_fuel config q all : reduce_keys config q all <> NoFuel.
Proof.
  revert all. induction q as [|e q IH]; intros all; simpl; [discriminate|].
  unfold replace_key. destruct (delimiters config), e.
  destruct (compile _); simpl; [apply IH | discriminate].
Qed.

Lemma interpolation_no_fuel text query config :
  interpolation text query config <> NoFuel.
Proof.
  destruct text as [[|c txt]|], query; simpl; try discriminate.
  apply reduce_keys_no_fuel.
Qed.

Section ProviderFacts.

Variable inherited : value -> string -> value.
Variable allNamespaces : list (string * value).
Variable pluralRules : Z -> category.
Variable config : I18nConfig.
Variable window_defined : bool.

Local Abbreviation t_fuel :=
  (t_fuel inherited allNamespaces pluralRules config window_defined).
Local Abbreviation t :=
  (t inherited allNamespaces pluralRules config window_defined).
Local Abbreviation resolve :=
  (resolve inherited allNamespaces pluralRules config window_defined).
Local Abbreviation lookup := (lookup inherited allNamespaces pluralRules).
Local Abbreviation dictionary := (dictionary inherited allNamespaces).
Local Abbreviation plural := (plural inherited pluralRules).
Local Abbreviation pluralKey := (pluralKey pluralRules).
Local Abbreviation found := (found inherited).
Local Abbreviation getDicValue := (getDicValue inherited).
Local Abbreviation walk := (walk inherited).
Local Abbreviation finish := (finish config).

Lemma fallbacks_with_fallback opts rest :
  fallbacks_of (with_fallback opts rest) = rest.
Proof. reflexivity. Qed.

Lemma objectInterpolation_no_fuel o query :
  objectInterpolation o query config <> NoFuel.
Proof.
  induction o as [ | | | | | props IH | ] using value_ind_nested;
    destruct query as [[|e q]|]; simpl; try discriminate.
  match goal with |- bind ?m _ <> _ =>
    assert (Hm : m <> NoFuel); [| destruct m; simpl; congruence] end.
  induction IH as [|[key v] ps Hv _ IHps]; [discriminate|].
  simpl in Hv.
  assert (Hv' : (if instanceof_Object v
                 then objectInterpolation v (Some (e :: q)) config
                 else match v with
                      | VStr s =>
                          s' <- interpolation (Some s) (Some (e :: q)) config ;;
                          Return (VStr s')
                      | _ => Return v
                      end) <> NoFuel).
  { destruct (instanceof_Object v); [exact Hv|].
    destruct v; try discriminate.
    pose proof (interpolation_no_fuel (Some s) (Some (e :: q)) config) as Hi.
    destruct (interpolation (Some s) (Some (e :: q)) config);
      simpl; congruence. }
  destruct (if instanceof_Object v then _ else _); simpl; try congruence.
  destruct ((fix each (ps0 : list (string * value)) := _) ps);
    simpl; congruence.
Qed.

Lemma finish_no_fuel k v query : finish k v query <> NoFuel.
Proof.
  unfold finish.
  destruct (instanceof_Object v); [apply objectInterpolation_no_fuel|].
  pose proof (interpolation_no_fuel (as_text v) query config) as Hi.
  destruct (interpolation (as_text v) query config); simpl; congruence.
Qed.

Lemma t_fuel_S n key query opts :
  t_fuel (S n) key query opts =
  let val := lookup key query opts in
  let log := logged window_defined key (is_empty val) in
  match is_empty val, fallbacks_of opts with
  | true, firstFallback :: restFallbacks =>
      r <- t_fuel n firstFallback query (with_fallback opts restFallbacks) ;;
      Return (fst r, (log ++ snd r)%list)
  | _, _ => v <- finish key val query ;; Return (v, log)
  end.
Proof. reflexivity. Qed.

Lemma t_fuel_stable n m key query opts :
  List.length (fallbacks_of opts) < n ->
  List.length (fallbacks_of opts) < m ->
  t_fuel n key query opts = t_fuel m key query opts.
Proof.
  revert m key opts.
  induction n as [|n IH]; intros [|m] key opts Hn Hm; try lia.
  rewrite !t_fuel_S. cbv zeta.
  destruct (is_empty (lookup key query opts)); [|reflexivity].
  destruct (fallbacks_of opts) as [|f rest] eqn:Hfb; [reflexivity|].
  rewrite (IH m f (with_fallback opts rest)); [reflexivity| |];
    rewrite fallbacks_with_fallback; simpl in *; lia.
Qed.

(** The equation of [t]: the body of the source, the recursive call
    being a call of [t]. *)
Lemma t_unfold key query opts :
  t key query opts =
  let val := lookup key query opts in
  let log := logged window_defined key (is_empty val) in
  match is_empty val, fallbacks_of opts with
  | true, firstFallback :: restFallbacks =>
      r <- t firstFallback query (with_fallback opts restFallbacks) ;;
      Return (fst r, (log ++ snd r)%list)
  | _, _ => v <- finish key val query ;; Return (v, log)
  end.
Proof.
  unfold t at 1. rewrite t_fuel_S. cbv zeta.
  destruct (is_empty (lookup key query opts)); [|reflexivity].
  destruct (fallbacks_of opts) as [|f rest] eqn:Hfb; [reflexivity|].
  unfold t.
  rewrite (t_fuel_stable (List.length (f :: rest))
             (S (List.length (fallbacks_of (with_fallback opts rest)))));
    [reflexivity | |]; rewrite fallbacks_with_fallback; simpl; lia.
Qed.

Lemma resolve_unfold key query opts :
  resolve key query opts =
  match is_empty (lookup key query opts), fallbacks_of opts with
  | true, firstFallback :: restFallbacks =>
      resolve firstFallback query (with_fallback opts restFallbacks)
  | _, _ => finish key (lookup key query opts) query
  end.
Proof.
  unfold resolve. rewrite t_unfold. simpl.
  destruct (is_empty (lookup key query opts)).
  - destruct (fallbacks_of opts) as [|f rest].
    + destruct (finish key _ query); reflexivity.
    + destruct (t f query (with_fallback opts rest)); reflexivity.
  - destruct (finish key _ query); reflexivity.
Qed.

(** C8: [t] returns within [length fallbacks + 1] nested calls: that
    much fuel, or any larger amount, never runs out, and the result does
    not depend on the surplus. *)
Theorem t_terminates key query opts extra :
  t_fuel (S (List.length (fallbacks_of opts)) + extra) key query opts
    <> NoFuel
  /\ t_fuel (S (List.length (fallbacks_of opts)) + extra) key query opts
     = t key query opts.
Proof.
  assert (Heq : t_fuel (S (List.length (fallbacks_of opts)) + extra)
                  key query opts = t key query opts).
  { unfold t. apply t_fuel_stable; lia. }
  split; [|exact Heq]. rewrite Heq. clear Heq extra.
  remember (fallbacks_of opts) as fb eqn:Hfb.
  revert key opts Hfb.
  induction fb as [|f rest IH]; intros key opts Hfb; rewrite t_unfold; simpl;
    rewrite <- Hfb.
  - pose proof (finish_no_fuel key (lookup key query opts) query) as Hf.
    destruct (is_empty _); destruct (finish key _ query);
      simpl; congruence.
  - pose proof (finish_no_fuel key (lookup key query opts) query) as Hf.
    destruct (is_empty _).
    + specialize (IH f (with_fallback opts rest) eq_refl).
      destruct (t f query (with_fallback opts rest)); simpl; congruence.
    + destruct (finish key _ query); simpl; congruence.
Qed.

(** ** What [t] does with the value it looked up *)

Lemma lookup_split key ns leaf query opts :
  split_key key = (ns, leaf) ->
  lookup key query opts
  = getDicValue (dictionary ns) (plural (dictionary ns) leaf query) opts.
Proof. intros H. unfold lookup. now rewrite H. Qed.

Lemma finish_undefined key query : finish key VUndef query = Return (VStr key).
Proof. unfold finish. simpl. now destruct query. Qed.

Lemma finish_empty_object key query :
  finish key (VObj []) query = Return (VObj []).
Proof. unfold finish. simpl. now destruct query as [[|e q]|]. Qed.

(** A key whose lookup yields nothing: the first fallback is resolved in
    its place, and without a fallback the key itself is the result. *)
Lemma resolve_undefined key query opts :
  lookup key query opts = VUndef ->
  resolve key query opts
  = match fallbacks_of opts with
    | firstFallback :: restFallbacks =>
        resolve firstFallback query (with_fallback opts restFallbacks)
    | [] => Return (VStr key)
    end.
Proof.
  intros H. rewrite resolve_unfold, H. simpl.
  destruct (fallbacks_of opts); [apply finish_undefined | reflexivity].
Qed.

Lemma resolve_found key query opts :
  is_empty (lookup key query opts) = false ->
  resolve key query opts = finish key (lookup key query opts) query.
Proof. intros H. now rewrite resolve_unfold, H. Qed.

Lemma lookup_returnObjects key query o1 o2 :
  returnObjects_of o1 = returnObjects_of o2 ->
  lookup key query o1 = lookup key query o2.
Proof.
  intros H. unfold lookup. destruct (split_key key) as [ns leaf].
  unfold getDicValue. now rewrite H.
Qed.

Lemma empty_without_returnObjects key query opts :
  returnObjects_of opts = false ->
  is_empty (lookup key query opts) = true ->
  lookup key query opts = VUndef.
Proof.
  intros Hro He. unfold lookup in *. destruct (split_key key) as [ns leaf].
  destruct (getDicValue_strings_only inherited (dictionary ns)
              (plural (dictionary ns) leaf query) opts Hro) as [H | [s H]];
    [exact H|].
  rewrite H in He. discriminate.
Qed.

(** ** Keys the dictionary holds *)


(** C7: a non-string object held at the key that is looked up, without
    [returnObjects], is treated as a key that is missing: the lookup
    yields [undefined], the result is classified empty, and [t] goes on
    to the first fallback or, without one, returns the key itself. *)
Theorem object_without_returnObjects_is_missing
    key ns leaf D query opts kp v :
  split_key key = (ns, leaf) ->
  dictionary ns = D ->
  plural D leaf query = kp ->
  holds D (key_or_default kp) v ->
  instanceof_Object v = true ->
  returnObjects_of opts = false ->
  lookup key query opts = VUndef
  /\ is_empty (lookup key query opts) = true
  /\ resolve key query opts
     = match fallbacks_of opts with
       | firstFallback :: restFallbacks =>
           resolve firstFallback query (with_fallback opts restFallbacks)
       | [] => Return (VStr key)
       end.
Proof.
  intros Hsplit HD Hkp Hholds Hobj Hro.
  assert (Hl : lookup key query opts = VUndef).
  { rewrite (lookup_split _ _ _ _ _ Hsplit), HD, Hkp.
    unfold getDicValue.
    rewrite (walk_own_path _ _ _ _ (split_on_nonempty _ _) Hholds).
    rewrite or_empty_not_string by (right; now destruct v).
    now rewrite Hro, andb_false_r. }
  split; [exact Hl|]. split; [now rewrite Hl|].
  now apply resolve_undefined.
Qed.

(** C10 (amended): when the dictionary holds the empty string at the key
    that is looked up, the fold yields an empty mapping and the result
    is classified empty; [t] goes on to the first fallback, and without
    one it returns the key itself, or the empty mapping when
    [returnObjects] is set; it does not return the empty string. *)
Theorem empty_string_value_is_empty key ns leaf D query opts kp :
  split_key key = (ns, Some leaf) ->
  dictionary ns = D ->
  plural D (Some leaf) query = Some kp ->
  holds D kp (VStr "") ->
  walk D (split_on "." kp) = VObj []
  /\ is_empty (lookup key query opts) = true
  /\ resolve key query opts
     = match fallbacks_of opts with
       | firstFallback :: restFallbacks =>
           resolve firstFallback query (with_fallback opts restFallbacks)
       | [] => Return (if returnObjects_of opts then VObj [] else VStr key)
       end
  /\ (fallbacks_of opts = [] -> resolve key query opts <> Return (VStr "")).
Proof.
  intros Hsplit HD Hkp Hholds.
  destruct (getDicValue_holds_empty_string inherited D kp opts Hholds)
    as [Hwalk Hget].
  assert (Hl : lookup key query opts
               = if returnObjects_of opts then VObj [] else VUndef).
  { now rewrite (lookup_split _ _ _ _ _ Hsplit), HD, Hkp. }
  assert (He : is_empty (lookup key query opts) = true).
  { rewrite Hl. now destruct (returnObjects_of opts). }
  assert (Hr : resolve key query opts
     = match fallbacks_of opts with
       | firstFallback :: restFallbacks =>
           resolve firstFallback query (with_fallback opts restFallbacks)
       | [] => Return (if returnObjects_of opts then VObj [] else VStr key)
       end).
  { rewrite resolve_unfold, He, Hl.
    destruct (fallbacks_of opts); [|reflexivity].
    destruct (returnObjects_of opts);
      [apply finish_empty_object | apply finish_undefined]. }
  repeat split; try assumption.
  intros Hfb. rewrite Hr, Hfb.
  destruct (returnObjects_of opts); [discriminate|].
  intros H. injection H as H. subst key. discriminate.
Qed.

(** ** Plural keys *)

Lemma found_holds_string D key V :
  holds D key (VStr V) -> V <> "" -> found D key = true.
Proof.
  intros H HV. unfold found.
  now rewrite (getDicValue_holds_string inherited D key V None H HV).
Qed.

Lemma found_holds_object D key v :
  holds D key v -> instanceof_Object v = true -> found D key = false.
Proof.
  intros H Hv. unfold found.
  rewrite (getDicValue_holds_not_string inherited D key v None H);
    [reflexivity | now destruct v | reflexivity].
Qed.

Lemma plural_count D key q c :
  query_count q = Some c ->
  plural D key (Some q)
  = if found D (numKey key c) then Some (numKey key c)
    else if (1 <? c)%Z && found D (pluralKey key c)
         then Some (pluralKey key c)
         else key.
Proof. intros H. unfold plural. now rewrite H. Qed.

Lemma resolve_string key ns leaf D query opts kp V :
  split_key key = (ns, leaf) ->
  dictionary ns = D ->
  plural D leaf query = Some kp ->
  holds D kp (VStr V) ->
  V <> "" ->
  resolve key query opts
  = (s <- interpolation (Some V) query config ;;
     Return (VStr (if s =? "" then key else s))).
Proof.
  intros Hsplit HD Hkp Hholds HV.
  assert (Hl : lookup key query opts = VStr V).
  { rewrite (lookup_split _ _ _ _ _ Hsplit), HD, Hkp.
    now apply getDicValue_holds_string. }
  rewrite resolve_found; rewrite Hl; reflexivity.
Qed.

(** C3 (amended): when the query carries the count [c] and the
    dictionary holds a non-empty string [V] at [base_<c>], the plural
    selector returns that key, whatever the category key holds, and [t]
    returns [V] with the placeholders of the query interpolated (the
    composite key when that text is empty). *)
Theorem exact_count_key_wins key ns base D q c V opts :
  split_key key = (ns, Some base) ->
  dictionary ns = D ->
  query_count q = Some c ->
  holds D (numKey (Some base) c) (VStr V) ->
  V <> "" ->
  plural D (Some base) (Some q) = Some (numKey (Some base) c)
  /\ resolve key (Some q) opts
     = (s <- interpolation (Some V) (Some q) config ;;
        Return (VStr (if s =? "" then key else s))).
Proof.
  intros Hsplit HD Hc Hholds HV.
  assert (Hp : plural D (Some base) (Some q) = Some (numKey (Some base) c)).
  { rewrite (plural_count _ _ _ _ Hc).
    now rewrite (found_holds_string _ _ _ Hholds HV). }
  split; [exact Hp|].
  exact (resolve_string _ _ _ _ _ opts _ _ Hsplit HD Hp Hholds HV).
Qed.

(** C4 (amended): with nothing found at the exact-count key, a count
    above one selects the category key under which the dictionary holds
    a non-empty string [V], and [t] returns [V] with the placeholders of
    the query interpolated; a count of one or less leaves the base key
    unchanged, whatever the category key holds, and the base key is
    looked up. *)
Theorem category_key_only_above_one key ns base D q c opts :
  split_key key = (ns, Some base) ->
  dictionary ns = D ->
  query_count q = Some c ->
  found D (numKey (Some base) c) = false ->
  ((1 < c)%Z ->
   forall V, holds D (pluralKey (Some base) c) (VStr V) -> V <> "" ->
     plural D (Some base) (Some q) = Some (pluralKey (Some base) c)
     /\ resolve key (Some q) opts
        = (s <- interpolation (Some V) (Some q) config ;;
           Return (VStr (if s =? "" then key else s))))
  /\ ((c <= 1)%Z ->
      plural D (Some base) (Some q) = Some base
      /\ lookup key (Some q) opts = getDicValue D (Some base) opts).
Proof.
  intros Hsplit HD Hc Hnum. split.
  - intros Hgt V Hholds HV.
    assert (Hp : plural D (Some base) (Some q)
                 = Some (pluralKey (Some base) c)).
    { rewrite (plural_count _ _ _ _ Hc), Hnum.
      rewrite (found_holds_string _ _ _ Hholds HV).
      assert (H : (1 <? c)%Z = true) by now apply Z.ltb_lt.
      now rewrite H. }
    split; [exact Hp|].
    exact (resolve_string _ _ _ _ _ opts _ _ Hsplit HD Hp Hholds HV).
  - intros Hle.
    assert (Hp : plural D (Some base) (Some q) = Some base).
    { rewrite (plural_count _ _ _ _ Hc), Hnum.
      assert (H : (1 <? c)%Z = false) by now apply Z.ltb_ge.
      now rewrite H. }
    split; [exact Hp|].
    now rewrite (lookup_split _ _ _ _ _ Hsplit), HD, Hp.
Qed.

(** C9 (amended): the probes of [plural] take no options, so a probe
    whose key holds a non-string object finds nothing, whatever
    [returnObjects] the caller passed.  With an object at [base_<count>]
    the selector returns the category key when the count is above one
    and that probe finds a string, else the base key; with an object at
    [base_<category>] it returns the exact-count key when that probe
    finds a string, else the base key; with objects at both it returns
    the base key, and [t] looks the base key up under any options. *)
Theorem plural_probes_skip_objects key ns leaf D q c :
  split_key key = (ns, leaf) ->
  dictionary ns = D ->
  query_count q = Some c ->
  (forall v, holds D (numKey leaf c) v -> instanceof_Object v = true ->
     plural D leaf (Some q)
     = if (1 <? c)%Z && found D (pluralKey leaf c)
       then Some (pluralKey leaf c) else leaf)
  /\ (forall v, holds D (pluralKey leaf c) v -> instanceof_Object v = true ->
     plural D leaf (Some q)
     = if found D (numKey leaf c) then Some (numKey leaf c) else leaf)
  /\ (forall v1 v2,
        holds D (numKey leaf c) v1 -> instanceof_Object v1 = true ->
        holds D (pluralKey leaf c) v2 -> instanceof_Object v2 = true ->
        plural D leaf (Some q) = leaf
        /\ forall opts,
             lookup key (Some q) opts = getDicValue D leaf opts).
Proof.
  intros Hsplit HD Hc. split; [|split].
  - intros v Hholds Hv.
    now rewrite (plural_count _ _ _ _ Hc), (found_holds_object _ _ _ Hholds Hv).
  - intros v Hholds Hv.
    rewrite (plural_count _ _ _ _ Hc), (found_holds_object _ _ _ Hholds Hv).
    now rewrite andb_false_r.
  - intros v1 v2 Hnum Hv1 Hcat Hv2.
    assert (Hp : plural D leaf (Some q) = leaf).
    { rewrite (plural_count _ _ _ _ Hc).
      rewrite (found_holds_object _ _ _ Hnum Hv1).
      rewrite (found_holds_object _ _ _ Hcat Hv2).
      now rewrite andb_false_r. }
    split; [exact Hp|]. intros opts.
    now rewrite (lookup_split _ _ _ _ _ Hsplit), HD, Hp.
Qed.

(** ** The fallback chain *)

(** C1 (amended): with the chain [[k1; k2]] and an original key that
    resolves empty, [t] returns what [k1] resolves to when [k1] is not
    empty, else what [k2] resolves to when [k2] is not empty; when both
    are empty too it returns [k2], the last key it tried. *)
Theorem fallback_chain_of_two missing k1 k2 query :
  let opts := Some (mkOptions false (FbArray [k1; k2])) in
  is_empty (lookup missing query opts) = true ->
  (is_empty (lookup k1 query opts) = false ->
   forall fb, resolve missing query opts
              = resolve k1 query (Some (mkOptions false fb)))
  /\ (is_empty (lookup k1 query opts) = true ->
      is_empty (lookup k2 query opts) = false ->
      forall fb, resolve missing query opts
                 = resolve k2 query (Some (mkOptions false fb)))
  /\ (is_empty (lookup k1 query opts) = true ->
      is_empty (lookup k2 query opts) = true ->
      resolve missing query opts = Return (VStr k2)).
Proof.
  intros opts Hm.
  assert (Hlk : forall k o, returnObjects_of o = false ->
                  lookup k query o = lookup k query opts).
  { intros k o Ho. now apply lookup_returnObjects. }
  assert (H1 : resolve missing query opts
               = resolve k1 query (with_fallback opts [k2])).
  { now rewrite resolve_unfold, Hm. }
  assert (H2 : is_empty (lookup k1 query opts) = true ->
               resolve missing query opts
               = resolve k2 query (with_fallback opts [])).
  { intros He. rewrite H1, resolve_unfold.
    now rewrite (Hlk k1 (with_fallback opts [k2]) eq_refl), He. }
  repeat split.
  - intros He fb. rewrite H1.
    rewrite !resolve_found; rewrite ?Hlk; auto.
  - intros He1 He2 fb. rewrite (H2 He1).
    rewrite !resolve_found; rewrite ?Hlk; auto.
  - intros He1 He2. rewrite (H2 He1).
    apply empty_without_returnObjects in He2; [|reflexivity].
    rewrite resolve_undefined; [reflexivity|].
    now rewrite (Hlk k2 (with_fallback opts []) eq_refl).
Qed.

End ProviderFacts.

(** * The sample provider *)

(** ** The scenario of the specification *)

Example greeting_interpolated :
  resolve0 "common:greeting" (Some [("name", QStr "Ana")]) None
  = Return (VStr "Hello Ana").
Proof. reflexivity. Qed.

Example one_apple :
  resolve0 "common:apples" (Some [("count", QNum 1)]) None
  = Return (VStr "one apple").
Proof. reflexivity. Qed.

Example five_apples :
  resolve0 "common:apples" (Some [("count", QNum 5)]) None
  = Return (VStr "5 apples").
Proof. reflexivity. Qed.

Example fallback_to_greeting :
  resolve0 "common:missing" (Some [("name", QStr "X")])
    (Some (mkOptions false (FbString "common:greeting")))
  = Return (VStr "Hello X").
Proof. reflexivity. Qed.

(** Every key that comes out empty is reported, in the order tried. *)
Example missing_keys_logged :
  t0 "common:missing" None fallback_k1_k2
  = Return (VStr "common:k2",
            [mkLoggerProps "common" (Some "missing");
             mkLoggerProps "common" (Some "k1");
             mkLoggerProps "common" (Some "k2")]).
Proof. reflexivity. Qed.

(** A chain of two fallbacks needs three nested calls. *)
Example two_calls_do_not_suffice :
  t_fuel object_prototype ns0 english cfg0 true 2
    "common:missing" None fallback_k1_k2 = NoFuel.
Proof. reflexivity. Qed.

(** The order of the keys shows in the result. *)
Example interpolation_order_matters :
  interpolation (Some "{{a}}") (Some [("a", QStr "{{b}}"); ("b", QStr "X")])
    cfg0 = Return "X"
  /\ interpolation (Some "{{a}}") (Some [("b", QStr "X"); ("a", QStr "{{b}}")])
       cfg0 = Return "{{b}}".
Proof. split; reflexivity. Qed.

(** ** Instances of the theorems *)



Lemma object_without_returnObjects_is_missing_witness :
  lookup0 "common:menu" None None = VUndef
  /\ is_empty (lookup0 "common:menu" None None) = true
  /\ resolve0 "common:menu" None None = Return (VStr "common:menu").
Proof.
  apply (object_without_returnObjects_is_missing object_prototype ns0 english
           cfg0 true "common:menu" "common" (Some "menu") common None None
           (Some "menu")
           (VObj [("home", VStr "Home"); ("about", VStr "About {{name}}")]));
    reflexivity.
Defined.

Lemma empty_string_value_is_empty_witness :
  walk object_prototype common (split_on "." "blank") = VObj []
  /\ is_empty (lookup0 "common:blank" None None) = true
  /\ resolve0 "common:blank" None None = Return (VStr "common:blank")
  /\ (fallbacks_of None = [] ->
      resolve0 "common:blank" None None <> Return (VStr "")).
Proof.
  apply (empty_string_value_is_empty object_prototype ns0 english cfg0 true
           "common:blank" "common" "blank" common None None "blank");
    reflexivity.
Defined.

Lemma fallback_chain_of_two_witness :
  resolve0 "common:missing" None
    (Some (mkOptions false (FbArray ["common:greeting"; "common:k2"])))
  = resolve0 "common:greeting" None (Some (mkOptions false FbAbsent))
  /\ resolve0 "common:missing" None
       (Some (mkOptions false (FbArray ["common:k1"; "common:greeting"])))
     = resolve0 "common:greeting" None (Some (mkOptions false FbAbsent))
  /\ resolve0 "common:missing" None fallback_k1_k2
     = Return (VStr "common:k2").
Proof.
  split; [|split].
  - apply (proj1 (fallback_chain_of_two object_prototype ns0 english cfg0
                    true "common:missing" "common:greeting" "common:k2" None
                    eq_refl)).
    reflexivity.
  - apply (proj1 (proj2 (fallback_chain_of_two object_prototype ns0 english
                           cfg0 true "common:missing" "common:k1"
                           "common:greeting" None eq_refl)));
      reflexivity.
  - apply (proj2 (proj2 (fallback_chain_of_two object_prototype ns0 english
                           cfg0 true "common:missing" "common:k1"
                           "common:k2" None eq_refl)));
      reflexivity.
Defined.

Lemma exact_count_key_wins_witness :
  plural0 common (Some "apples") (Some [("count", QNum 1)])
  = Some "apples_1"
  /\ resolve0 "common:apples" (Some [("count", QNum 1)]) None
     = Return (VStr "one apple").
Proof.
  apply (exact_count_key_wins object_prototype ns0 english cfg0 true
           "common:apples" "common" "apples" common
           [("count", QNum 1)] 1%Z "one apple" None);
    [reflexivity | reflexivity | reflexivity | reflexivity | discriminate].
Defined.

Lemma category_key_only_above_one_witness :
  (plural0 common (Some "apples") (Some [("count", QNum 5)])
   = Some "apples_other"
   /\ resolve0 "common:apples" (Some [("count", QNum 5)]) None
      = Return (VStr "5 apples"))
  /\ (plural0 fruit (Some "figs") (Some [("count", QNum 0)]) = Some "figs"
      /\ lookup0 "fruit:figs" (Some [("count", QNum 0)]) None = VStr "a fig").
Proof.
  split.
  - apply (proj1 (category_key_only_above_one object_prototype ns0 english
                    cfg0 true "common:apples" "common" "apples" common
                    [("count", QNum 5)] 5%Z None
                    eq_refl eq_refl eq_refl eq_refl)
             eq_refl "{{count}} apples");
      [reflexivity | discriminate].
  - apply (proj2 (category_key_only_above_one object_prototype ns0 english
                    cfg0 true "fruit:figs" "fruit" "figs" fruit
                    [("count", QNum 0)] 0%Z None
                    eq_refl eq_refl eq_refl eq_refl)).
    discriminate.
Defined.

Lemma plural_probes_skip_objects_witness :
  plural0 fruit (Some "limes") (Some [("count", QNum 2)]) = Some "limes"
  /\ forall opts,
       lookup0 "fruit:limes" (Some [("count", QNum 2)]) opts
       = getDicValue object_prototype fruit (Some "limes") opts.
Proof.
  apply (proj2 (proj2 (plural_probes_skip_objects object_prototype ns0 english
                         "fruit:limes" "fruit" (Some "limes") fruit
                         [("count", QNum 2)] 2%Z eq_refl eq_refl eq_refl))
           (VObj [("label", VStr "two limes")])
           (VObj [("label", VStr "limes")]));
    reflexivity.
Defined.

Lemma interpolation_fills_template_witness :
  interpolation (Some (render welcome))
    (Some [("name", QStr "Ana"); ("n", QNum 3)]) cfg0
  = Return "Hello Ana, you have 3 of {{total}}"
  /\ forall x, In x ["name"; "n"] ->
       ~ placeholder_in x "Hello Ana, you have 3 of {{total}}".
Proof.
  apply (interpolation_fills_template cfg0
           [("name", QStr "Ana"); ("n", QNum 3)] welcome);
    reflexivity.
Defined.

(** ** Where the sentences of the specification fail *)

(** C1: when the chain is exhausted the result is the last fallback key,
    not the key [t] was called with. *)
Lemma exhausted_chain_returns_last_key :
  is_empty (lookup0 "common:missing" None fallback_k1_k2) = true
  /\ is_empty (lookup0 "common:k1" None fallback_k1_k2) = true
  /\ is_empty (lookup0 "common:k2" None fallback_k1_k2) = true
  /\ resolve0 "common:missing" None fallback_k1_k2
     = Return (VStr "common:k2")
  /\ resolve0 "common:missing" None fallback_k1_k2
     <> Return (VStr "common:missing").
Proof. repeat split; try reflexivity. discriminate. Qed.


(** C3: an empty string at the exact-count key gives way to the category
    key, and a value with a placeholder is not returned as stored. *)
Lemma exact_count_value_not_returned :
  (holds fruit "pears_2" (VStr "")
   /\ resolve0 "fruit:pears" (Some [("count", QNum 2)]) None
      = Return (VStr "many pears"))
  /\ (holds fruit "plums_2" (VStr "{{count}} plums")
      /\ resolve0 "fruit:plums" (Some [("count", QNum 2)]) None
         = Return (VStr "2 plums")
      /\ resolve0 "fruit:plums" (Some [("count", QNum 2)]) None
         <> Return (VStr "{{count}} plums")).
Proof. repeat split; try reflexivity. discriminate. Qed.

(** C4: an empty string at the category key gives way to the base key,
    and a value with a placeholder is not returned as stored. *)
Lemma category_value_not_returned :
  (found object_prototype fruit "figs_5" = false
   /\ holds fruit "figs_other" (VStr "")
   /\ resolve0 "fruit:figs" (Some [("count", QNum 5)]) None
      = Return (VStr "a fig"))
  /\ (found object_prototype common "apples_5" = false
      /\ holds common "apples_other" (VStr "{{count}} apples")
      /\ resolve0 "common:apples" (Some [("count", QNum 5)]) None
         <> Return (VStr "{{count}} apples")).
Proof. repeat split; try reflexivity. discriminate. Qed.

(** C6: a value that is itself a placeholder of its key stays in the
    output, and so does a placeholder that the replacement completes. *)
Lemma placeholder_remains :
  (interpolation (Some "{{x}}") (Some [("x", QStr "{{x}}")]) cfg0
   = Return "{{x}}"
   /\ placeholder_in "x" "{{x}}")
  /\ (interpolation (Some "{{ {{x}} }}") (Some [("x", QStr "x")]) cfg0
      = Return "{{ x }}"
      /\ placeholder_in "x" "{{ x }}").
Proof.
  split; (split; [reflexivity|]).
  - exists "", "", "", "". repeat split; reflexivity.
  - exists "", " ", " ", "". repeat split; reflexivity.
Qed.

(** C9: with an object at the exact-count key and a string at the
    category key, the selector returns the category key, not the base
    key. *)
Lemma object_at_exact_key_category_selected :
  holds fruit "kiwis_2" (VObj [("label", VStr "two kiwis")])
  /\ plural0 fruit (Some "kiwis") (Some [("count", QNum 2)])
     = Some "kiwis_other"
  /\ plural0 fruit (Some "kiwis") (Some [("count", QNum 2)])
     <> Some "kiwis".
Proof. repeat split; try reflexivity. discriminate. Qed.

(** C10: with [returnObjects] and no fallback, the empty mapping is the
    result, not the key. *)
Lemma empty_mapping_returned :
  holds common "blank" (VStr "")
  /\ resolve0 "common:blank" None (Some (mkOptions true FbAbsent))
     = Return (VObj [])
  /\ resolve0 "common:blank" None (Some (mkOptions true FbAbsent))
     <> Return (VStr "common:blank").
Proof. repeat split; try reflexivity. discriminate. Qed.

(** * Further properties *)

(** ** Splitting a composite key *)

#[local] Arguments line_terminator : simpl never.

Lemma take_line_line_free leaf tail :
  line_free leaf = true -> line_end tail = true ->
  take_line (leaf ++ tail) = leaf.
Proof.
  intros Hleaf Htail. induction leaf as [|c leaf IH]; simpl.
  - destruct tail as [|d tail]; [reflexivity|]. simpl in Htail.
    simpl. now rewrite Htail.
  - unfold line_free in Hleaf. simpl in Hleaf.
    apply andb_true_iff in Hleaf as [Hc Hleaf].
    apply negb_true_iff in Hc. rewrite Hc, IH; auto.
Qed.

(** X1: a namespace without a colon, a colon and a non-empty leaf free of
    line terminators split back into that namespace and that leaf; the
    leaf may itself contain colons, and it ends where a line terminator
    follows. *)
Theorem split_key_join ns leaf tail :
  colon_free ns = true ->
  leaf <> "" ->
  line_free leaf = true ->
  line_end tail = true ->
  split_key (ns ++ ":" ++ leaf ++ tail) = (ns, Some leaf).
Proof.
  intros Hns Hne Hleaf Htail.
  induction ns as [|c ns IH].
  - destruct leaf as [|d leaf]; [congruence|].
    assert (Hd : line_terminator d = false).
    { unfold line_free in Hleaf. simpl in Hleaf.
      apply andb_true_iff in Hleaf as [Hd _]. now apply negb_true_iff in Hd. }
    change (split_key ("" ++ ":" ++ String d leaf ++ tail))
      with (if line_terminator d
            then let (ns, l) := split_key (String d leaf ++ tail) in
                 (String ":" ns, l)
            else ("", Some (take_line (String d leaf ++ tail)))).
    rewrite Hd. now rewrite take_line_line_free.
  - unfold colon_free in Hns. simpl in Hns.
    apply andb_true_iff in Hns as [Hc Hns]. apply negb_true_iff in Hc.
    simpl. rewrite Hc. fold (colon_free ns) in Hns.
    simpl in IH. now rewrite (IH Hns).
Qed.

(** X2: whatever the key, the namespace [t] works with is a prefix of
    it: the whole key when no leaf comes out, and otherwise the text
    before a colon that the leaf follows; a leaf is never empty and
    holds no line terminator. *)
Theorem split_key_parts key :
  match split_key key with
  | (ns, None) => ns = key
  | (ns, Some leaf) =>
      leaf <> "" /\ line_free leaf = true
      /\ exists tail, line_end tail = true
                      /\ key = ns ++ ":" ++ leaf ++ tail
  end.
Proof.
  assert (Htake : forall s, line_free (take_line s) = true
            /\ exists tail, line_end tail = true /\ s = take_line s ++ tail).
  { induction s as [|c s [IH1 (tail & IH2 & IH3)]]; simpl.
    - split; [reflexivity|]. now exists "".
    - destruct (line_terminator c) eqn:Hc.
      + split; [reflexivity|]. exists (String c s). simpl. now rewrite Hc.
      + split.
        * unfold line_free in *. simpl. now rewrite Hc, IH1.
        * exists tail. split; [exact IH2|]. simpl. now rewrite <- IH3. }
  induction key as [|c key IH]; [reflexivity|].
  assert (Hgo : match (let (ns, leaf) := split_key key in (String c ns, leaf))
                with
                | (ns, None) => ns = String c key
                | (ns, Some leaf) =>
                    leaf <> "" /\ line_free leaf = true
                    /\ exists tail, line_end tail = true
                         /\ String c key = ns ++ ":" ++ leaf ++ tail
                end).
  { destruct (split_key key) as [ns [leaf|]].
    - destruct IH as (H1 & H2 & tail & H3 & H4).
      repeat split; auto. exists tail. split; [exact H3|].
      simpl. f_equal. exact H4.
    - now rewrite IH. }
  simpl. destruct (Ascii.eqb c ":") eqn:Hc; [|exact Hgo].
  destruct key as [|d key]; [exact Hgo|].
  destruct (line_terminator d) eqn:Hd; [exact Hgo|].
  apply Ascii.eqb_eq in Hc. subst c.
  destruct (Htake (String d key)) as [H1 (tail & H2 & H3)].
  split; [|split; [exact H1|]].
  - simpl. now rewrite Hd.
  - exists tail. split; [exact H2|]. cbn [append]. f_equal. exact H3.
Qed.

(** ** What the navigator yields *)

Section NavigatorMore.

Variable inherited : value -> string -> value.
Variable pluralRules : Z -> category.

Local Abbreviation step := (step inherited).
Local Abbreviation walk := (walk inherited).
Local Abbreviation getDicValue := (getDicValue inherited).
Local Abbreviation found := (found inherited).
Local Abbreviation plural := (plural inherited pluralRules).
Local Abbreviation pluralKey := (pluralKey pluralRules).

Lemma or_empty_is_truthy v : truthy (or_empty v) = true.
Proof. unfold or_empty. now destruct (truthy v) eqn:H. Qed.

Lemma walk_app d segments1 segments2 :
  walk d (segments1 ++ segments2)%list = walk (walk d segments1) segments2.
Proof. apply fold_left_app. Qed.

Lemma walk_truthy d segments :
  segments <> [] -> truthy (walk d segments) = true.
Proof.
  intros H. destruct (exists_last H) as (front & seg & ->).
  rewrite walk_app. apply or_empty_is_truthy.
Qed.

Lemma getDicValue_shape d key opts :
  match getDicValue d key opts with
  | VUndef => True
  | VStr s => s <> ""
  | v => instanceof_Object v = true /\ returnObjects_of opts = true
  end.
Proof.
  unfold getDicValue.
  pose proof (walk_truthy d (split_on "." (key_or_default key))
                (split_on_nonempty _ _)) as Ht.
  destruct (walk d _) as [ | | b | n | s | props | name ];
    simpl in *; try discriminate.
  - exact I.
  - exact I.
  - apply negb_true_iff, String.eqb_neq in Ht. exact Ht.
  - destruct (returnObjects_of opts); simpl; auto.
  - destruct (returnObjects_of opts); simpl; auto.
Qed.

(** X3: whatever the dictionary, the key and the options, the navigator
    yields [undefined], a string that is not empty, or, only when
    [returnObjects] is set, an object; it never yields a falsy value
    other than [undefined]. *)
Theorem getDicValue_yields d key opts :
  match getDicValue d key opts with
  | VUndef => True
  | VStr s => s <> ""
  | v => instanceof_Object v = true /\ returnObjects_of opts = true
  end.
Proof. apply getDicValue_shape. Qed.

Lemma walk_stays_empty segments :
  (forall seg, In seg segments -> inherited (VObj []) seg = VUndef) ->
  walk (VObj []) segments = VObj [].
Proof.
  induction segments as [|seg segments IH]; intros H; [reflexivity|].
  unfold walk in *. simpl. unfold step, get. simpl.
  rewrite (H seg) by now left. simpl.
  apply IH. intros s Hs. apply H. now right.
Qed.

(** X4: when, somewhere along the dotted key, an object of the
    dictionary has no property of the next segment, own or inherited,
    and no later segment names a member that an empty object inherits,
    the lookup does not fail: it yields [undefined], or the empty object
    when [returnObjects] is set. *)
Theorem getDicValue_missing_segment d key front seg back props opts :
  split_on "." key = (front ++ seg :: back)%list ->
  own_path d front = Some (VObj props) ->
  assoc seg props = None ->
  inherited (VObj props) seg = VUndef ->
  (forall s, In s back -> inherited (VObj []) s = VUndef) ->
  getDicValue d (Some key) opts
  = if returnObjects_of opts then VObj [] else VUndef.
Proof.
  intros Hsplit Hfront Hseg Hinh Hback.
  assert (Hw : walk d (split_on "." key) = VObj []).
  { rewrite Hsplit, walk_app.
    assert (Hf : walk d front = VObj props).
    { destruct front as [|s front].
      - simpl in Hfront. now injection Hfront as ->.
      - now rewrite (walk_own_path inherited d (s :: front) (VObj props)). }
    rewrite Hf. unfold walk. simpl fold_left.
    assert (Hs : step (VObj props) seg = VObj []).
    { unfold step, get. now rewrite Hseg, Hinh. }
    rewrite Hs. now apply walk_stays_empty. }
  unfold getDicValue. simpl key_or_default. rewrite Hw. simpl.
  now destruct (returnObjects_of opts).
Qed.

(** X5: the plural selector hands back either the key it was given or a
    key under which the navigator finds a string that is not empty, and
    finds it whatever options the caller passes. *)
Theorem plural_selects_found d key query :
  plural d key query = key
  \/ exists k s,
       plural d key query = Some k /\ s <> ""
       /\ forall opts, getDicValue d (Some k) opts = VStr s.
Proof.
  assert (Hfound : forall k, found d k = true ->
            exists s, s <> "" /\ forall opts, getDicValue d (Some k) opts = VStr s).
  { intros k Hk. unfold found in Hk.
    pose proof (getDicValue_shape d (Some k) None) as Hy.
    destruct (getDicValue_strings_only inherited d (Some k) None eq_refl)
      as [Hu | [s Hs]].
    - rewrite Hu in Hk. discriminate.
    - rewrite Hs in Hy. exists s. split; [exact Hy|].
      intros opts. unfold getDicValue in *.
      destruct (walk d _); try discriminate.
      simpl in *. exact Hs. }
  unfold plural.
  destruct query as [q|]; [|now left].
  destruct (query_count q) as [c|]; [|now left].
  destruct (found d (numKey key c)) eqn:Hnum.
  - right. destruct (Hfound _ Hnum) as (s & Hs & Hall). now exists (numKey key c), s.
  - destruct ((1 <? c)%Z); simpl; [|now left].
    destruct (found d (pluralKey key c)) eqn:Hcat; [|now left].
    right. destruct (Hfound _ Hcat) as (s & Hs & Hall).
    now exists (pluralKey key c), s.
Qed.

End NavigatorMore.

(** ** Delimiters and replacement values *)

Lemma mem_escaped_not_syntax c :
  mem_ascii c escaped_set = false ->
  Ascii.eqb c "\" = false /\ mem_ascii c syntax_set = false.
Proof.
  unfold mem_ascii. simpl. intros H.
  repeat (apply orb_false_iff in H as [? H]).
  split; [assumption|].
  repeat (apply orb_false_iff; split); assumption.
Qed.

Lemma compile_escapeRegex p r :
  compile (escapeRegex p ++ r) = option_map (app (atoms_of p)) (compile r).
Proof.
  induction p as [|c p IH]; simpl.
  - now destruct (compile r).
  - destruct (mem_ascii c escaped_set) eqn:Hc.
    + simpl. rewrite Hc.
      assert (Hs : Ascii.eqb c "s" = false).
      { destruct (Ascii.eqb c "s") eqn:E; [|reflexivity].
        apply Ascii.eqb_eq in E. subst c. discriminate. }
      rewrite Hs, IH. now destruct (compile r).
    + destruct (mem_escaped_not_syntax c Hc) as [Hbs Hsyn].
      simpl. rewrite Hbs, Hsyn, IH. now destruct (compile r).
Qed.

(** X6: whatever characters a delimiter holds, the source
    [escapeRegex] makes of it compiles to a pattern that matches the
    delimiter itself and nothing else: it matches at a text exactly when
    the text begins with the delimiter, and consumes just that. *)
Theorem escapeRegex_matches_itself p :
  compile (escapeRegex p) = Some (atoms_of p)
  /\ forall s n,
       match_atoms (atoms_of p) s = Some n
       <-> n = String.length p /\ exists rest, s = p ++ rest.
Proof.
  split.
  - rewrite <- (append_nil_r (escapeRegex p)), compile_escapeRegex. simpl.
    now rewrite app_nil_r.
  - intros s n. split.
    + intros H. rewrite <- (app_nil_r (atoms_of p)) in H.
      apply match_atoms_of_inv in H as (rest & m & -> & Hm & ->).
      simpl in Hm. injection Hm as <-. split; [lia | now exists rest].
    + intros [-> [rest ->]].
      rewrite <- (app_nil_r (atoms_of p)), match_atoms_of. simpl.
      f_equal. lia.
Qed.

Lemma compile_pattern_source prefix k suffix :
  literal_name k = true ->
  compile (pattern_source prefix k suffix)
  = Some (atoms_of prefix ++ WsStar :: atoms_of k
          ++ WsStar :: atoms_of suffix)%list.
Proof.
  intros Hk. unfold pattern_source.
  rewrite compile_escapeRegex.
  change (compile ("\s*" ++ k ++ "\s*" ++ escapeRegex suffix))
    with (option_map (cons WsStar)
            (compile (k ++ "\s*" ++ escapeRegex suffix))).
  rewrite (compile_literal _ _ Hk).
  change (compile ("\s*" ++ escapeRegex suffix))
    with (option_map (cons WsStar) (compile (escapeRegex suffix))).
  rewrite <- (append_nil_r (escapeRegex suffix)), compile_escapeRegex.
  simpl. now rewrite app_nil_r.
Qed.

Lemma replace_all_copy p repl text :
  match_atoms p "" = None ->
  (forall l1 l2, text = l1 ++ l2 -> l2 <> "" -> match_atoms p l2 = None) ->
  replace_all p repl text = text.
Proof.
  intros Hend H. unfold replace_all.
  rewrite <- (append_nil_r text) at 1.
  rewrite replace_from_copy.
  - simpl. rewrite Hend. apply append_nil_r.
  - intros l1 l2 Hcut Hl2. rewrite append_nil_r. now apply (H l1 l2).
Qed.

(** X7: a text in which the first character of the prefix does not
    occur comes back unchanged, whatever the values of the query, as
    long as its names stand for themselves in a pattern. *)
Theorem interpolation_without_prefix config c0 prefix suffix text q :
  delimiters config = (String c0 prefix, suffix) ->
  all_chars (fun c => negb (Ascii.eqb c c0)) text = true ->
  forallb (fun e => literal_name (fst e)) q = true ->
  interpolation (Some text) (Some q) config = Return text.
Proof.
  intros Hcfg Htext Hq.
  assert (Hr : reduce_keys config q text = Return text).
  { induction q as [|[k v] q IH]; [reflexivity|].
    simpl in Hq. apply andb_true_iff in Hq as [Hk Hq].
    cbn [reduce_keys]. unfold replace_key. rewrite Hcfg.
    rewrite (compile_pattern_source _ _ _ Hk). cbn [bind].
    rewrite replace_all_copy; [now apply IH | reflexivity |].
    intros l1 l2 -> Hl2. destruct l2 as [|d l2]; [congruence|].
    rewrite all_chars_append in Htext.
    apply andb_true_iff in Htext as [_ Htext]. simpl in Htext.
    apply andb_true_iff in Htext as [Hd _]. apply negb_true_iff in Hd.
    simpl. now rewrite Ascii.eqb_sym, Hd. }
  destruct text as [|c text]; [reflexivity | exact Hr].
Qed.

Lemma substring_append m rest :
  substring 0 (String.length m) (m ++ rest) = m.
Proof.
  induction m as [|c m IH]; simpl.
  - now destruct rest.
  - now rewrite IH.
Qed.

Lemma skipn_string_append m rest :
  skipn_string (String.length m) (m ++ rest) = rest.
Proof. induction m as [|c m IH]; simpl; [now destruct rest | exact IH]. Qed.

Lemma replace_from_match_expand p repl c m rest before :
  match_atoms p (String c m ++ rest) = Some (String.length (String c m)) ->
  replace_from p repl before (String c m ++ rest) 0
  = expand (String c m) before rest repl
    ++ replace_from p repl (before ++ String c m) rest 0.
Proof.
  intros Hm.
  change (replace_from p repl before (String c m ++ rest) 0)
    with (match match_atoms p (String c m ++ rest) with
          | Some n =>
              expand (substring 0 n (String c m ++ rest)) before
                (skipn_string n (String c m ++ rest)) repl ++
              match n with
              | O => String c (replace_from p repl (before ++ String c "")
                                 (m ++ rest) 0)
              | S n' => replace_from p repl (before ++ String c "")
                          (m ++ rest) n'
              end
          | None =>
              String c (replace_from p repl (before ++ String c "")
                          (m ++ rest) 0)
          end).
  rewrite Hm, substring_append, skipn_string_append.
  change (String.length (String c m)) with (S (String.length m)).
  cbv iota beta. f_equal.
  now rewrite replace_from_skip, append_assoc.
Qed.

Lemma brace_free_no_match x l rest :
  brace_free l = true ->
  forall l1 l2, l = l1 ++ l2 -> l2 <> "" ->
    match_atoms (name_pattern x) (l2 ++ rest) = None.
Proof.
  intros Hl l1 l2 -> Hl2. destruct l2 as [|d l2]; [congruence|].
  unfold brace_free in Hl. rewrite all_chars_append in Hl.
  apply andb_true_iff in Hl as [_ Hl].
  apply not_open_no_match. now apply brace_free_head in Hl.
Qed.

(** The one placeholder of a text whose other stretches have no opening
    brace is replaced by the expansion of the value. *)
Lemma replace_all_single x repl pre w1 w2 post :
  literal_name x = true ->
  blank w1 = true -> blank w2 = true ->
  brace_free pre = true -> brace_free post = true ->
  replace_all (name_pattern x) repl
    (pre ++ ("{{" ++ w1 ++ x ++ w2 ++ "}}") ++ post)
  = pre ++ expand ("{{" ++ w1 ++ x ++ w2 ++ "}}") pre post repl ++ post.
Proof.
  intros Hx Hw1 Hw2 Hpre Hpost. unfold replace_all.
  rewrite replace_from_copy by (now apply brace_free_no_match).
  f_equal. simpl append at 1.
  pose proof (match_name_pattern_hole x w1 w2 post
                (literal_name_plain _ Hx) Hw1 Hw2) as Hm.
  rewrite <- !append_assoc in Hm. rewrite !append_assoc in Hm.
  change ("{{" ++ w1 ++ x ++ w2 ++ "}}")
    with (String "{" ("{" ++ w1 ++ x ++ w2 ++ "}}")) in *.
  rewrite replace_from_match_expand.
  - f_equal. rewrite <- (append_nil_r post) at 1.
    rewrite replace_from_copy by (now apply brace_free_no_match).
    simpl. apply append_nil_r.
  - rewrite <- Hm. f_equal. simpl. now rewrite !append_assoc.
Qed.

(** X8: in a text whose only placeholder is one of [x], the rest having
    no opening brace, the placeholder is replaced by the expansion of
    the value, not by the value as it stands: in the value [$$] gives a
    dollar sign, [$&] the placeholder itself, [$`] the text before it
    and [$'] the text after it. *)
Theorem interpolation_expands_value config x v pre w1 w2 post :
  delimiters config = ("{{", "}}") ->
  literal_name x = true ->
  blank w1 = true -> blank w2 = true ->
  brace_free pre = true -> brace_free post = true ->
  interpolation (Some (pre ++ ("{{" ++ w1 ++ x ++ w2 ++ "}}") ++ post))
    (Some [(x, v)]) config
  = Return (pre ++ expand ("{{" ++ w1 ++ x ++ w2 ++ "}}") pre post
                     (qvalue_to_string v) ++ post).
Proof.
  intros Hcfg Hx Hw1 Hw2 Hpre Hpost.
  assert (Hr : reduce_keys config [(x, v)]
                 (pre ++ ("{{" ++ w1 ++ x ++ w2 ++ "}}") ++ post)
               = Return (pre ++ expand ("{{" ++ w1 ++ x ++ w2 ++ "}}") pre post
                                  (qvalue_to_string v) ++ post)).
  { cbn [reduce_keys]. unfold replace_key. rewrite Hcfg.
    rewrite (compile_name_pattern _ Hx). cbn [bind].
    now rewrite replace_all_single. }
  destruct pre as [|c pre]; exact Hr.
Qed.

(** X9: a value without a dollar sign is inserted as it stands and is
    not scanned again, even when it holds a placeholder of its own
    key. *)
Theorem interpolation_inserts_value config x v pre w1 w2 post :
  delimiters config = ("{{", "}}") ->
  literal_name x = true ->
  dollar_free (qvalue_to_string v) = true ->
  blank w1 = true -> blank w2 = true ->
  brace_free pre = true -> brace_free post = true ->
  interpolation (Some (pre ++ ("{{" ++ w1 ++ x ++ w2 ++ "}}") ++ post))
    (Some [(x, v)]) config
  = Return (pre ++ qvalue_to_string v ++ post).
Proof.
  intros Hcfg Hx Hv Hw1 Hw2 Hpre Hpost.
  assert (Hr : reduce_keys config [(x, v)]
                 (pre ++ ("{{" ++ w1 ++ x ++ w2 ++ "}}") ++ post)
               = Return (pre ++ qvalue_to_string v ++ post)).
  { cbn [reduce_keys]. unfold replace_key. rewrite Hcfg.
    rewrite (compile_name_pattern _ Hx). cbn [bind].
    rewrite replace_all_single by assumption.
    now rewrite (expand_dollar_free _ _ _ _ Hv). }
  destruct pre as [|c pre]; exact Hr.
Qed.

(** ** Interpolation of an object *)

Lemma map_leaves_id f v : (forall s, f s = s) -> map_leaves f v = v.
Proof.
  intros Hf.
  induction v as [ | | | | | props IH | ] using value_ind_nested;
    try reflexivity.
  simpl. f_equal.
  induction IH as [|[k x] ps Hx _ IHps]; [reflexivity|].
  simpl in *. rewrite IHps. f_equal. f_equal.
  destruct x; try reflexivity; [now rewrite Hf | exact Hx].
Qed.

Lemma objectInterpolation_map_leaves config q f obj :
  (forall s, interpolation (Some s) (Some q) config = Return (f s)) ->
  objectInterpolation obj (Some q) config = Return (map_leaves f obj).
Proof.
  intros Hf. destruct q as [|e q].
  - rewrite map_leaves_id; [now destruct obj|].
    intros s. specialize (Hf s). destruct s; simpl in Hf; congruence.
  - induction obj as [ | | | | | props IH | ] using value_ind_nested;
      try reflexivity.
    simpl.
    match goal with |- bind ?m _ = _ =>
      assert (Hm : m = Return
                (map (fun kv : string * value =>
                        let (k, x) := kv in
                        (k, match x with
                            | VStr s => VStr (f s)
                            | inner => map_leaves f inner
                            end)) props));
        [| now rewrite Hm] end.
    induction IH as [|[k x] ps Hx _ IHps]; [reflexivity|].
    rewrite IHps. simpl in Hx.
    destruct x as [ | | | | s | inner | name ]; simpl; try reflexivity.
    + specialize (Hf s). simpl in Hf. now rewrite Hf.
    + simpl in Hx. now rewrite Hx.
Qed.

(** X10: when the query makes a text [f s] of each text [s],
    [objectInterpolation] returns the object it was given with every
    string property, at any depth, rewritten by [f]; the keys, their
    order and every other value stay as they are. *)
Theorem objectInterpolation_rewrites_leaves config q f obj :
  (forall s, interpolation (Some s) (Some q) config = Return (f s)) ->
  objectInterpolation obj (Some q) config = Return (map_leaves f obj)
  /\ keys (map_leaves f obj) = keys obj.
Proof.
  intros Hf. split; [now apply objectInterpolation_map_leaves|].
  destruct obj; try reflexivity. simpl.
  rewrite map_map. apply map_ext. now intros [k x].
Qed.

Lemma assoc_map_leaves f seg props :
  assoc seg (map (fun kv : string * value =>
                    let (k, x) := kv in
                    (k, match x with
                        | VStr s => VStr (f s)
                        | inner => map_leaves f inner
                        end)) props)
  = option_map (fun x => match x with
                         | VStr s => VStr (f s)
                         | inner => map_leaves f inner
                         end) (assoc seg props).
Proof.
  induction props as [|[k x] props IH]; [reflexivity|].
  simpl. now destruct (seg =? k).
Qed.

Lemma own_path_map_leaves f d segments s :
  segments <> [] ->
  own_path d segments = Some (VStr s) ->
  own_path (map_leaves f d) segments = Some (VStr (f s)).
Proof.
  revert d. induction segments as [|seg segments IH]; [congruence|].
  intros d _ H. simpl in H.
  destruct d as [ | | | | | props | ]; try discriminate.
  destruct (assoc seg props) as [x|] eqn:Hseg; [|discriminate].
  cbn [map_leaves own_path]. rewrite assoc_map_leaves, Hseg. simpl.
  destruct segments as [|seg2 segments].
  - simpl in H. injection H as ->. reflexivity.
  - assert (Hx : exists ps, x = VObj ps).
    { simpl in H. destruct x; try discriminate. eauto. }
    destruct Hx as [ps ->]. apply IH; [discriminate | exact H].
Qed.

(** X11: a string the object holds under a dotted key is found, under
    the same key of the object returned, as the text the query makes of
    it. *)
Theorem objectInterpolation_at_key config q f obj key s :
  (forall s, interpolation (Some s) (Some q) config = Return (f s)) ->
  holds obj key (VStr s) ->
  exists obj',
    objectInterpolation obj (Some q) config = Return obj'
    /\ holds obj' key (VStr (f s)).
Proof.
  intros Hf Hholds. exists (map_leaves f obj).
  split; [now apply objectInterpolation_map_leaves|].
  apply own_path_map_leaves; [apply split_on_nonempty | exact Hholds].
Qed.

(** ** The resolver along its fallback chain *)

Lemma pick_ext E E' chain key :
  (forall k, E k = E' k) -> pick E chain key = pick E' chain key.
Proof.
  intros H. revert key. induction chain as [|f rest IH]; intros key;
    [reflexivity|].
  simpl. rewrite <- H. now destruct (E key).
Qed.

Lemma tried_ext E E' chain key :
  (forall k, E k = E' k) -> tried E chain key = tried E' chain key.
Proof.
  intros H. revert key. induction chain as [|f rest IH]; intros key; simpl;
    rewrite <- H; destruct (E key); try reflexivity.
  now rewrite IH.
Qed.

Lemma pick_in E chain key : In (pick E chain key) (key :: chain).
Proof.
  revert key. induction chain as [|f rest IH]; intros key; simpl.
  - now left.
  - destruct (E key); [right; apply IH | now left].
Qed.

Lemma objectInterpolation_object config q obj v :
  instanceof_Object obj = true ->
  objectInterpolation obj q config = Return v ->
  instanceof_Object v = true.
Proof.
  intros Hobj H. destruct q as [[|e q]|]; simpl in H.
  - destruct obj; simpl in H; now injection H as <-.
  - destruct obj; try discriminate.
    + simpl in H.
      destruct ((fix each (ps : list (string * value)) := _) props);
        try discriminate.
      now injection H as <-.
    + now injection H as <-.
  - destruct obj; simpl in H; now injection H as <-.
Qed.

Section ResolverMore.

Variable inherited : value -> string -> value.
Variable allNamespaces : list (string * value).
Variable pluralRules : Z -> category.
Variable config : I18nConfig.

Local Abbreviation t :=
  (t inherited allNamespaces pluralRules config).
Local Abbreviation resolve :=
  (resolve inherited allNamespaces pluralRules config).
Local Abbreviation lookup := (lookup inherited allNamespaces pluralRules).
Local Abbreviation dictionary := (dictionary inherited allNamespaces).
Local Abbreviation finish := (finish config).

(** The value [t] returns and the calls of the logger, read along the
    fallback chain. *)
Lemma t_along_chain window_defined key query opts :
  let E := fun k => is_empty (lookup k query opts) in
  let k := pick E (fallbacks_of opts) key in
  t window_defined key query opts
  = (v <- finish k (lookup k query opts) query ;;
     Return (v, if window_defined
                then map props_of (tried E (fallbacks_of opts) key)
                else [])).
Proof.
  cbv zeta.
  remember (fallbacks_of opts) as chain eqn:Hchain.
  revert key opts Hchain.
  induction chain as [|f rest IH]; intros key opts Hchain;
    rewrite t_unfold; cbv zeta; rewrite <- Hchain.
  - simpl. unfold logged.
    destruct (is_empty (lookup key query opts));
      destruct window_defined; reflexivity.
  - simpl. unfold logged.
    destruct (is_empty (lookup key query opts)) eqn:He.
    + rewrite (IH f (with_fallback opts rest) eq_refl).
      assert (Hext : forall k,
                is_empty (lookup k query (with_fallback opts rest))
                = is_empty (lookup k query opts)).
      { intros k. now rewrite (lookup_returnObjects inherited allNamespaces
                                  pluralRules k query
                                  (with_fallback opts rest) opts eq_refl). }
      rewrite (pick_ext _ _ rest f Hext), (tried_ext _ _ rest f Hext).
      rewrite (lookup_returnObjects inherited allNamespaces pluralRules
                 _ query (with_fallback opts rest) opts eq_refl).
      destruct (finish _ _ query); try reflexivity.
      destruct window_defined; reflexivity.
    + destruct window_defined;
        destruct (finish key _ query); reflexivity.
Qed.

(** X12: [t] hands back the value of the first key, the key itself
    first and then the fallbacks in order, that does not come out empty,
    or of the last key when all do; the logger is called once for each
    key that came out empty, in that order, and not at all when
    [window] is undefined. *)
Theorem t_picks_first_found window_defined key query opts :
  t window_defined key query opts
  = (v <- finish
            (pick (fun k => is_empty (lookup k query opts))
               (fallbacks_of opts) key)
            (lookup
               (pick (fun k => is_empty (lookup k query opts))
                  (fallbacks_of opts) key) query opts)
            query ;;
     Return (v, if window_defined
                then map props_of
                       (tried (fun k => is_empty (lookup k query opts))
                          (fallbacks_of opts) key)
                else [])).
Proof. apply t_along_chain. Qed.

(** X13: whether [window] is defined changes the calls of the logger
    and nothing else: without it [t] returns the same value and logs
    nothing. *)
Theorem t_without_window key query opts :
  t false key query opts
  = (r <- t true key query opts ;; Return (fst r, [])).
Proof.
  rewrite !t_along_chain. cbv zeta.
  now destruct (finish _ _ query).
Qed.

Lemma finish_result k val query v :
  finish k val query = Return v ->
  (instanceof_Object val = true /\ instanceof_Object v = true)
  \/ (instanceof_Object val = false
      /\ exists s, v = VStr s /\ (s = "" -> k = "")).
Proof.
  unfold finish. destruct (instanceof_Object val) eqn:Hobj; intros H.
  - left. split; [reflexivity|].
    now apply (objectInterpolation_object config query val v).
  - right. split; [reflexivity|].
    destruct (interpolation (as_text val) query config) as [s| |];
      try discriminate.
    simpl in H. injection H as <-.
    destruct (String.eqb_spec s "") as [-> | Hs].
    + exists k. now split.
    + exists s. now split.
Qed.

(** X14: what [t] returns is a string or, only when [returnObjects] is
    set, an object; it is never [undefined].  The string is empty only
    when the key itself or one of the fallback keys is. *)
Theorem t_returns_text_or_object window_defined key query opts v log :
  t window_defined key query opts = Return (v, log) ->
  (exists s, v = VStr s
             /\ (s = "" -> In "" (key :: fallbacks_of opts)))
  \/ (instanceof_Object v = true /\ returnObjects_of opts = true).
Proof.
  rewrite t_along_chain. cbv zeta.
  set (k := pick _ (fallbacks_of opts) key).
  assert (Hk : In k (key :: fallbacks_of opts)) by apply pick_in.
  destruct (finish k (lookup k query opts) query) as [v'| |] eqn:Hf;
    try discriminate.
  simpl. intros H. injection H as <- _.
  destruct (finish_result _ _ _ _ Hf) as [[Hval Hv] | [_ (s & -> & Hs)]].
  - right. split; [exact Hv|].
    unfold lookup in Hval. destruct (split_key k) as [ns leaf].
    match type of Hval with
    | instanceof_Object (getDicValue ?i ?d ?kp ?o) = true =>
        pose proof (getDicValue_shape i d kp o) as Hy;
        destruct (getDicValue i d kp o); try discriminate; apply Hy
    end.
  - left. exists s. split; [reflexivity|].
    intros Hempty. now rewrite <- (Hs Hempty).
Qed.

(** X15: a key whose namespace is not among the namespaces, own or
    inherited, resolves without a fallback to the key itself, or to the
    empty object when [returnObjects] is set, as long as no segment of
    the keys looked up (the leaf and, with a count, the two keys
    [plural] probes) names a member that an empty object inherits. *)
Theorem unknown_namespace window_defined key ns leaf query opts :
  split_key key = (ns, leaf) ->
  assoc ns allNamespaces = None ->
  inherited (VObj allNamespaces) ns = VUndef ->
  (forall k, In k (probed_keys pluralRules leaf query) ->
     forall seg, In seg (split_on "." k) ->
       inherited (VObj []) seg = VUndef) ->
  fallbacks_of opts = [] ->
  resolve window_defined key query opts
  = Return (if returnObjects_of opts then VObj [] else VStr key).
Proof.
  intros Hsplit Hns Hinh Hkeys Hfb.
  assert (Hd : dictionary ns = VObj []).
  { unfold dictionary, get. now rewrite Hns, Hinh. }
  assert (Hget : forall k o,
            In (key_or_default k) (probed_keys pluralRules leaf query) ->
            getDicValue inherited (VObj []) k o
            = if returnObjects_of o then VObj [] else VUndef).
  { intros k o Hk. unfold getDicValue.
    rewrite (walk_stays_empty inherited _ (Hkeys _ Hk)). simpl.
    now destruct (returnObjects_of o). }
  assert (Hp : plural inherited pluralRules (VObj []) leaf query = leaf).
  { unfold plural, found. unfold probed_keys in Hget.
    destruct query as [q|]; [|reflexivity].
    destruct (query_count q) as [c|]; [|reflexivity].
    rewrite !(Hget (Some _)) by (simpl; auto).
    simpl. now rewrite andb_false_r. }
  assert (Hl : lookup key query opts
               = if returnObjects_of opts then VObj [] else VUndef).
  { rewrite (lookup_split _ _ _ _ _ _ _ _ Hsplit), Hd, Hp.
    apply Hget. now left. }
  rewrite resolve_unfold, Hl, Hfb.
  destruct (returnObjects_of opts); simpl;
    [apply finish_empty_object | apply finish_undefined].
Qed.

Lemma split_key_colon_free key :
  colon_free key = true -> split_key key = (key, None).
Proof.
  induction key as [|c key IH]; [reflexivity|].
  unfold colon_free. simpl. intros H.
  apply andb_true_iff in H as [Hc Hkey]. apply negb_true_iff in Hc.
  rewrite Hc. fold (colon_free key) in Hkey. now rewrite (IH Hkey).
Qed.

(** X16: a key without a colon that comes out empty is the first thing
    reported, as a namespace without a leaf, and outside production the
    default logger warns that this text has no namespace in front of
    it. *)
Theorem colon_free_key_reported key query opts :
  colon_free key = true ->
  is_empty (lookup key query opts) = true ->
  match t true key query opts with
  | Return (_, log) => exists rest, log = mkLoggerProps key None :: rest
  | BadPattern => True
  | NoFuel => False
  end
  /\ missingKeyLogger false (mkLoggerProps key None)
     = ["[next-translate] The text " ++ dquote ++ key ++ dquote
        ++ " has no namespace in front of it."].
Proof.
  intros Hkey He. split; [|reflexivity].
  rewrite t_along_chain. cbv zeta.
  assert (Htried : exists rest,
            tried (fun k => is_empty (lookup k query opts))
              (fallbacks_of opts) key = key :: rest).
  { destruct (fallbacks_of opts); simpl; rewrite He; eauto. }
  destruct Htried as [rest ->].
  assert (Hprops : props_of key = mkLoggerProps key None).
  { unfold props_of. now rewrite (split_key_colon_free _ Hkey). }
  destruct (finish _ _ query) as [v| |] eqn:Hf.
  - exists (map props_of rest). simpl. now rewrite Hprops.
  - exact I.
  - now destruct (finish_no_fuel config _ _ _ Hf).
Qed.

End ResolverMore.

(** ** Well-formed templates again *)

Lemma interpolation_render config q tpl :
  delimiters config = ("{{", "}}") ->
  wf_query q = true ->
  wf_template tpl = true ->
  interpolation (Some (render tpl)) (Some q) config
  = Return (render (map (fill q) tpl)).
Proof.
  intros Hcfg Hq Htpl.
  destruct (render tpl) as [|c txt] eqn:Htext.
  - simpl. now rewrite (render_empty q tpl Htext), Htext.
  - cbn [interpolation]. rewrite <- Htext. now apply reduce_keys_render.
Qed.

Lemma fill_fill q p : fill q (fill q p) = fill q p.
Proof.
  destruct p as [s | w1 n w2]; [reflexivity|]. simpl.
  destruct (assoc n q) eqn:Hn; [reflexivity|]. simpl. now rewrite Hn.
Qed.

(** X17: for a well-formed template and query, interpolating the output
    once more with the same query changes nothing. *)
Theorem interpolation_twice config q tpl :
  delimiters config = ("{{", "}}") ->
  wf_query q = true ->
  wf_template tpl = true ->
  exists out,
    interpolation (Some (render tpl)) (Some q) config = Return out
    /\ interpolation (Some out) (Some q) config = Return out.
Proof.
  intros Hcfg Hq Htpl. exists (render (map (fill q) tpl)).
  split; [now apply interpolation_render|].
  rewrite interpolation_render; [| exact Hcfg | exact Hq | now apply wf_fill].
  rewrite map_map. do 2 f_equal. apply map_ext. intros p. apply fill_fill.
Qed.

Lemma assoc_not_in {A} k (q : list (string * A)) :
  ~ In k (map fst q) -> assoc k q = None.
Proof.
  induction q as [|[k' v] q IH]; [reflexivity|]. simpl. intros H.
  destruct (String.eqb_spec k k') as [-> | _]; [tauto|].
  apply IH. tauto.
Qed.

Lemma assoc_permutation {A} (q q' : list (string * A)) k :
  Permutation q q' -> NoDup (map fst q) -> assoc k q = assoc k q'.
Proof.
  intros Hperm. induction Hperm as [| [k1 v1] q q' Hperm IH
                                    | [k1 v1] [k2 v2] q
                                    | q q' q'' H1 IH1 H2 IH2 ]; intros Hnd.
  - reflexivity.
  - simpl. inversion Hnd; subst. now rewrite IH.
  - simpl. inversion Hnd as [|? ? Hnot _]; subst.
    destruct (String.eqb_spec k k1) as [E1 | _];
      destruct (String.eqb_spec k k2) as [E2 | _]; try reflexivity.
    subst. simpl in Hnot. tauto.
  - rewrite IH1 by exact Hnd. apply IH2.
    apply (Permutation_NoDup (l := map fst q)); [|exact Hnd].
    now apply Permutation_map.
Qed.

Lemma wf_query_permutation q q' :
  Permutation q q' -> wf_query q = true -> wf_query q' = true.
Proof.
  unfold wf_query. intros Hperm H.
  apply forallb_forall. intros e He.
  apply (proj1 (forallb_forall _ _) H).
  apply (Permutation_in _ (Permutation_sym Hperm) He).
Qed.

(** X18: for a well-formed template and query the order of the keys of
    the query does not show in the result. *)
Theorem interpolation_order_irrelevant config q q' tpl :
  delimiters config = ("{{", "}}") ->
  Permutation q q' ->
  NoDup (map fst q) ->
  wf_query q = true ->
  wf_template tpl = true ->
  interpolation (Some (render tpl)) (Some q) config
  = interpolation (Some (render tpl)) (Some q') config.
Proof.
  intros Hcfg Hperm Hnd Hq Htpl.
  rewrite !interpolation_render;
    try assumption; [| now apply (wf_query_permutation q q')].
  do 2 f_equal. apply map_ext. intros [s | w1 n w2]; [reflexivity|].
  simpl. now rewrite (assoc_permutation q q' n Hperm Hnd).
Qed.

(** ** The namespaces of a provider *)

Lemma assoc_set_existing {A} k (v : A) props k' :
  assoc k props <> None ->
  assoc k' (set_existing k v props)
  = if k' =? k then Some v else assoc k' props.
Proof.
  induction props as [|[k0 x] ps IH]; simpl; [congruence|].
  intros H. destruct (String.eqb_spec k k0) as [-> | Hk].
  - simpl. now destruct (k' =? k0).
  - simpl. destruct (String.eqb_spec k' k0) as [-> | Hk'].
    + destruct (String.eqb_spec k0 k); [congruence | reflexivity].
    + now apply IH.
Qed.

Lemma assoc_insert_index {A} n k (v : A) props k' :
  assoc k props = None ->
  assoc k' (insert_index n k v props)
  = if k' =? k then Some v else assoc k' props.
Proof.
  induction props as [|[k0 x] ps IH]; simpl; [reflexivity|].
  intros H. destruct (String.eqb_spec k k0) as [-> | Hk]; [discriminate|].
  assert (Hhere : assoc k' ((k, v) :: (k0, x) :: ps)
                  = if k' =? k then Some v
                    else if k' =? k0 then Some x else assoc k' ps)
    by reflexivity.
  destruct (array_index k0) as [m|]; [|exact Hhere].
  destruct (m <? n)%N; [|exact Hhere].
  simpl. rewrite (IH H).
  destruct (String.eqb_spec k' k0) as [-> | _]; [|reflexivity].
  destruct (String.eqb_spec k0 k); [congruence | reflexivity].
Qed.

Lemma assoc_append_one {A} k (v : A) props k' :
  assoc k props = None ->
  assoc k' (props ++ [(k, v)])%list
  = if k' =? k then Some v else assoc k' props.
Proof.
  induction props as [|[k0 x] ps IH]; simpl; [reflexivity|].
  intros H. destruct (String.eqb_spec k k0) as [-> | Hk]; [discriminate|].
  rewrite (IH H).
  destruct (String.eqb_spec k' k0) as [-> | _]; [|reflexivity].
  destruct (String.eqb_spec k0 k); [congruence | reflexivity].
Qed.

Lemma assoc_define_own {A} props k (v : A) k' :
  assoc k' (define_own props k v)
  = if k' =? k then Some v else assoc k' props.
Proof.
  unfold define_own. destruct (assoc k props) eqn:Hk.
  - apply assoc_set_existing. congruence.
  - destruct (array_index k).
    + now apply assoc_insert_index.
    + now apply assoc_append_one.
Qed.

Lemma assoc_spread target source k :
  assoc k (spread target source)
  = match assoc k source with
    | Some v => Some v
    | None => assoc k target
    end.
Proof.
  unfold spread.
  set (g := fun k => match assoc k source with Some v => v | None => VUndef end).
  assert (Hfold : forall ks acc,
            assoc k (fold_left (fun acc k => define_own acc k (g k)) ks acc)
            = if existsb (String.eqb k) ks then Some (g k) else assoc k acc).
  { induction ks as [|k0 ks IH]; intros acc; [reflexivity|].
    simpl. rewrite IH, assoc_define_own.
    destruct (existsb (String.eqb k) ks); [now rewrite orb_true_r|].
    rewrite orb_false_r.
    destruct (String.eqb_spec k k0) as [-> | _]; reflexivity. }
  rewrite Hfold. unfold g. clear.
  induction source as [|[k0 x] source IH]; [reflexivity|].
  simpl. destruct (k =? k0); [reflexivity | exact IH].
Qed.

(** X19: among the namespaces of a provider nested in another, a
    namespace it receives itself takes the place of the inherited one
    of the same name, and every other inherited namespace stays. *)
Theorem provider_namespaces_lookup ns namespaces k :
  assoc k (provider_namespaces ns namespaces)
  = match assoc k namespaces with
    | Some dic => Some dic
    | None => assoc k ns
    end.
Proof.
  unfold provider_namespaces. rewrite !assoc_spread. simpl.
  now destruct (assoc k namespaces), (assoc k ns).
Qed.

Lemma set_existing_keys {A} k (v : A) props :
  map fst (set_existing k v props) = map fst props.
Proof.
  induction props as [|[k0 x] ps IH]; [reflexivity|].
  simpl. destruct (k =? k0); simpl; [reflexivity | now rewrite IH].
Qed.

Lemma insert_index_permutation {A} n k (v : A) props :
  Permutation ((k, v) :: props) (insert_index n k v props).
Proof.
  induction props as [|[k0 x] ps IH]; simpl; [reflexivity|].
  destruct (array_index k0) as [m|]; [|reflexivity].
  destruct (m <? n)%N; [|reflexivity].
  rewrite perm_swap. now apply perm_skip.
Qed.

Lemma define_own_NoDup {A} props k (v : A) :
  NoDup (map fst props) -> NoDup (map fst (define_own props k v)).
Proof.
  intros Hnd. unfold define_own. destruct (assoc k props) eqn:Hk.
  - now rewrite set_existing_keys.
  - assert (Hnew : NoDup (map fst ((k, v) :: props))).
    { simpl. constructor; [|exact Hnd].
      intros Hin. now apply (assoc_key_in k props Hin). }
    destruct (array_index k).
    + apply (Permutation_NoDup (l := map fst ((k, v) :: props)));
        [|exact Hnew].
      apply Permutation_map, insert_index_permutation.
    + apply (Permutation_NoDup (l := map fst ((k, v) :: props)));
        [|exact Hnew].
      apply Permutation_map, Permutation_cons_append.
Qed.

Lemma spread_NoDup target source :
  NoDup (map fst target) -> NoDup (map fst (spread target source)).
Proof.
  unfold spread. generalize (map fst source) as ks. intros ks.
  revert target. induction ks as [|k ks IH]; intros target H; [exact H|].
  simpl. apply IH. now apply define_own_NoDup.
Qed.

(** X20: whatever the two objects, the namespaces of the nested
    provider list each name once, and the names are those of either
    object. *)
Theorem provider_namespaces_keys ns namespaces :
  NoDup (map fst (provider_namespaces ns namespaces))
  /\ forall k, In k (map fst (provider_namespaces ns namespaces))
               <-> In k (map fst ns) \/ In k (map fst namespaces).
Proof.
  split.
  - unfold provider_namespaces. apply spread_NoDup, spread_NoDup. constructor.
  - intros k.
    assert (Hin : forall (l : list (string * value)),
              In k (map fst l) <-> assoc k l <> None).
    { intros l. split; [apply assoc_key_in|].
      intros H. destruct (in_dec string_dec k (map fst l)) as [Hi | Hn];
        [exact Hi|]. now destruct (H (assoc_not_in k l Hn)). }
    unfold provider_namespaces. rewrite !Hin, !assoc_spread. simpl.
    destruct (assoc k namespaces), (assoc k ns); split; intros H;
      try congruence; try tauto; try (now left); try (now right).
Qed.

(** Array indices come first, in ascending order, and a name that is
    overridden keeps its place. *)
Example provider_namespaces_order :
  map fst (provider_namespaces
             [("common", VObj []); ("404", VObj []); ("home", VObj [])]
             [("home", common); ("7", VObj []); ("about", VObj [])])
  = ["7"; "404"; "common"; "home"; "about"].
Proof. reflexivity. Qed.

(** ** A key that goes on past a string *)

Lemma to_uint_nonnil n : Nat.to_uint n <> Decimal.Nil.
Proof.
  rewrite <- (DecimalNat.Unsigned.of_to n) at 1.
  rewrite DecimalNat.Unsigned.to_of. apply DecimalFacts.unorm_nonnil.
Qed.

Lemma string_of_nat_parses n :
  NilZero.uint_of_string (string_of_nat n) = Some (Nat.to_uint n).
Proof. apply NilZero.usu, to_uint_nonnil. Qed.

Lemma string_of_nat_inj i j : string_of_nat i = string_of_nat j -> i = j.
Proof.
  intros H. apply (f_equal NilZero.uint_of_string) in H.
  rewrite !string_of_nat_parses in H. injection H as H.
  now apply DecimalNat.Unsigned.to_uint_inj.
Qed.

Lemma string_of_uint_digits d :
  all_chars digit (NilEmpty.string_of_uint d) = true.
Proof. induction d; simpl; auto. Qed.

Lemma string_of_nat_dot_free n : dot_free (string_of_nat n) = true.
Proof.
  unfold string_of_nat, NilZero.string_of_uint.
  assert (H : forall s, all_chars digit s = true -> dot_free s = true).
  { intros s. apply all_chars_weaken. intros c Hc.
    destruct (Ascii.eqb c ".") eqn:E; [|reflexivity].
    apply Ascii.eqb_eq in E. subst c. discriminate. }
  destruct (Nat.to_uint n) eqn:E; try reflexivity;
    rewrite <- E; apply H, string_of_uint_digits.
Qed.

Lemma split_on_dot_free seg :
  dot_free seg = true -> split_on "." seg = [seg].
Proof.
  induction seg as [|c seg IH]; [reflexivity|].
  unfold dot_free. simpl. intros H.
  apply andb_true_iff in H as [Hc Hseg]. apply negb_true_iff in Hc.
  rewrite Hc. fold (dot_free seg) in Hseg. now rewrite (IH Hseg).
Qed.

Lemma split_on_append_segment key seg :
  dot_free seg = true ->
  split_on "." (key ++ "." ++ seg) = (split_on "." key ++ [seg])%list.
Proof.
  intros Hseg. induction key as [|c key IH].
  - simpl. now rewrite (split_on_dot_free _ Hseg).
  - simpl in IH |- *. rewrite IH.
    destruct (Ascii.eqb c "."); [reflexivity|].
    destruct (split_on "." key) eqn:E; [|reflexivity].
    now destruct (split_on_nonempty "." key).
Qed.

Lemma char_at_key_index s i j c :
  String.get i s = Some c ->
  char_at_key (string_of_nat (j + i)) s j = Some (VStr (String c "")).
Proof.
  revert i j. induction s as [|c0 s IH]; intros i j H; [discriminate|].
  destruct i as [|i]; simpl in H.
  - injection H as ->. simpl. now rewrite Nat.add_0_r, String.eqb_refl.
  - simpl.
    destruct (String.eqb_spec (string_of_nat (j + S i)) (string_of_nat j))
      as [E | _].
    + apply string_of_nat_inj in E. lia.
    + rewrite <- Nat.add_succ_comm. now apply IH.
Qed.

(** X21: when the dictionary holds a string under a dotted key, the key
    followed by a dot and an index within the string yields the
    character at that index, as a string of its own. *)
Theorem getDicValue_string_index inherited d key s i c opts :
  holds d key (VStr s) ->
  String.get i s = Some c ->
  getDicValue inherited d (Some (key ++ "." ++ string_of_nat i)) opts
  = VStr (String c "").
Proof.
  intros Hholds Hget.
  assert (Hs : s <> "") by (intros ->; discriminate).
  unfold getDicValue. simpl key_or_default.
  rewrite (split_on_append_segment _ _ (string_of_nat_dot_free i)).
  unfold walk. rewrite fold_left_app. fold (walk inherited d (split_on "." key)).
  rewrite (walk_own_path inherited d _ _ (split_on_nonempty _ _) Hholds).
  rewrite or_empty_truthy
    by (simpl; now apply negb_true_iff, String.eqb_neq).
  simpl fold_left. unfold step, get, string_own.
  assert (Hlen : (string_of_nat i =? "length") = false).
  { apply String.eqb_neq. intros E.
    pose proof (string_of_nat_parses i) as Hp. rewrite E in Hp.
    discriminate. }
  rewrite Hlen.
  rewrite (char_at_key_index s i 0 c Hget : char_at_key (string_of_nat i) s 0 = _).
  reflexivity.
Qed.

(** ** Options, objects and patterns *)

Section ResolverOptions.

Variable inherited : value -> string -> value.
Variable allNamespaces : list (string * value).
Variable pluralRules : Z -> category.
Variable config : I18nConfig.
Variable window_defined : bool.

Local Abbreviation t :=
  (t inherited allNamespaces pluralRules config window_defined).
Local Abbreviation resolve :=
  (resolve inherited allNamespaces pluralRules config window_defined).
Local Abbreviation lookup := (lookup inherited allNamespaces pluralRules).
Local Abbreviation dictionary := (dictionary inherited allNamespaces).
Local Abbreviation plural := (plural inherited pluralRules).

(** X22: [t] reads its options through [returnObjects] and the
    normalised fallback chain only: options that agree on both give the
    same result and the same calls of the logger, so a single string is
    a chain of one and absent options are an empty chain. *)
Theorem t_options_normalised key query o1 o2 :
  returnObjects_of o1 = returnObjects_of o2 ->
  fallbacks_of o1 = fallbacks_of o2 ->
  t key query o1 = t key query o2.
Proof.
  intros Hro Hfb. rewrite !t_along_chain. cbv zeta. rewrite Hfb.
  assert (Hl : forall k, lookup k query o1 = lookup k query o2).
  { intros k. now apply lookup_returnObjects. }
  assert (Hext : forall k, is_empty (lookup k query o1)
                           = is_empty (lookup k query o2)).
  { intros k. now rewrite Hl. }
  now rewrite (pick_ext _ _ _ key Hext), (tried_ext _ _ _ key Hext), Hl.
Qed.

(** X23: with [returnObjects], an object with at least one property
    held under the key that is looked up is what [t] returns, each of
    its string properties, at any depth, rewritten by the query. *)
Theorem object_returned key ns leaf D q opts kp k0 x0 props f :
  split_key key = (ns, leaf) ->
  dictionary ns = D ->
  plural D leaf (Some q) = kp ->
  holds D (key_or_default kp) (VObj ((k0, x0) :: props)) ->
  returnObjects_of opts = true ->
  (forall s, interpolation (Some s) (Some q) config = Return (f s)) ->
  t key (Some q) opts
  = Return (map_leaves f (VObj ((k0, x0) :: props)), []).
Proof.
  intros Hsplit HD Hkp Hholds Hro Hf.
  assert (Hl : lookup key (Some q) opts = VObj ((k0, x0) :: props)).
  { rewrite (lookup_split _ _ _ _ _ _ _ _ Hsplit), HD, Hkp.
    unfold getDicValue.
    rewrite (walk_own_path inherited D _ _ (split_on_nonempty _ _) Hholds).
    simpl. now rewrite Hro. }
  rewrite t_unfold. cbv zeta. rewrite Hl.
  change (is_empty (VObj ((k0, x0) :: props))) with false. cbv iota.
  unfold finish. cbn [instanceof_Object].
  rewrite (objectInterpolation_map_leaves _ _ f _ Hf). cbn [bind].
  unfold logged. now rewrite andb_false_r.
Qed.

End ResolverOptions.

(** X24: when every name of the query stands for itself in a pattern,
    [interpolation] returns a text whatever the delimiters, the values
    and the text: the pattern it builds is always inside the fragment,
    because the delimiters are escaped. *)
Theorem interpolation_literal_names_return config text q :
  forallb (fun e => literal_name (fst e)) q = true ->
  exists out, interpolation text (Some q) config = Return out.
Proof.
  intros Hq.
  assert (Hr : forall all, exists out, reduce_keys config q all = Return out).
  { induction q as [|[k v] q IH]; intros all; [now exists all|].
    simpl in Hq. apply andb_true_iff in Hq as [Hk Hq].
    cbn [reduce_keys]. unfold replace_key.
    destruct (delimiters config) as [prefix suffix].
    rewrite (compile_pattern_source _ _ _ Hk). cbn [bind].
    now apply IH. }
  destruct text as [[|c txt]|]; simpl; eauto.
Qed.

(** ** Instances of the further properties *)

Lemma split_key_join_witness :
  split_key "common:menu.home:x" = ("common", Some "menu.home:x").
Proof.
  apply (split_key_join "common" "menu.home:x" "");
    [reflexivity | discriminate | reflexivity | reflexivity].
Defined.

Lemma getDicValue_missing_segment_witness :
  getDicValue object_prototype common (Some "menu.nope.deeper")
    (Some (mkOptions true FbAbsent))
  = VObj [].
Proof.
  apply (getDicValue_missing_segment object_prototype common
           "menu.nope.deeper" ["menu"] "nope" ["deeper"]
           [("home", VStr "Home"); ("about", VStr "About {{name}}")]
           (Some (mkOptions true FbAbsent)));
    [reflexivity | reflexivity | reflexivity | reflexivity |].
  intros s [<- | []]. reflexivity.
Defined.

Lemma interpolation_without_prefix_witness :
  interpolation (Some "Hello world") (Some [("name", QStr "$&{{")]) cfg0
  = Return "Hello world".
Proof.
  apply (interpolation_without_prefix cfg0 "{" "{" "}}" "Hello world"
           [("name", QStr "$&{{")]);
    reflexivity.
Defined.

Lemma interpolation_expands_value_witness :
  interpolation (Some "p: {{ a}}.") (Some [("a", QStr "[$&|$$|$`|$']")]) cfg0
  = Return "p: [{{ a}}|$|p: |.].".
Proof.
  apply (interpolation_expands_value cfg0 "a" (QStr "[$&|$$|$`|$']")
           "p: " " " "" ".");
    reflexivity.
Defined.

Lemma interpolation_inserts_value_witness :
  interpolation (Some "p: {{ a}}.") (Some [("a", QStr "{{a}}")]) cfg0
  = Return "p: {{a}}.".
Proof.
  apply (interpolation_inserts_value cfg0 "a" (QStr "{{a}}")
           "p: " " " "" ".");
    reflexivity.
Defined.

Lemma objectInterpolation_rewrites_leaves_witness :
  objectInterpolation (VObj [("top", menu); ("n", VNum 3)]) (Some ana) cfg0
  = Return (VObj [("top", VObj [("home", VStr "Home");
                                ("about", VStr "About Ana")]);
                  ("n", VNum 3)])
  /\ keys (map_leaves with_ana (VObj [("top", menu); ("n", VNum 3)]))
     = ["top"; "n"].
Proof.
  apply (objectInterpolation_rewrites_leaves cfg0 ana with_ana
           (VObj [("top", menu); ("n", VNum 3)])).
  intros [|c s]; reflexivity.
Defined.

Lemma objectInterpolation_at_key_witness :
  exists obj',
    objectInterpolation (VObj [("top", menu)]) (Some ana) cfg0 = Return obj'
    /\ holds obj' "top.about" (VStr "About Ana").
Proof.
  apply (objectInterpolation_at_key cfg0 ana with_ana (VObj [("top", menu)])
           "top.about" "About {{name}}");
    [intros [|c s]; reflexivity | reflexivity].
Defined.

Lemma t_returns_text_or_object_witness :
  (exists s, VStr "common:k2" = VStr s
             /\ (s = "" -> In "" ["common:missing"; "common:k1"; "common:k2"]))
  \/ (instanceof_Object (VStr "common:k2") = true
      /\ returnObjects_of fallback_k1_k2 = true).
Proof.
  apply (t_returns_text_or_object object_prototype ns0 english cfg0 true
           "common:missing" None fallback_k1_k2 (VStr "common:k2")
           [mkLoggerProps "common" (Some "missing");
            mkLoggerProps "common" (Some "k1");
            mkLoggerProps "common" (Some "k2")]).
  reflexivity.
Defined.

Lemma unknown_namespace_witness :
  resolve object_prototype ns0 english cfg0 true "nope:key"
    (Some [("count", QNum 2)]) None
  = Return (VStr "nope:key").
Proof.
  apply (unknown_namespace object_prototype ns0 english cfg0 true
           "nope:key" "nope" (Some "key") (Some [("count", QNum 2)]) None);
    [reflexivity | reflexivity | reflexivity | | reflexivity].
  intros k [<- | [<- | [<- | []]]] seg [<- | []]; reflexivity.
Defined.

Lemma colon_free_key_reported_witness :
  match t0 "common" None None with
  | Return (_, log) => exists rest, log = mkLoggerProps "common" None :: rest
  | BadPattern => True
  | NoFuel => False
  end
  /\ missingKeyLogger false (mkLoggerProps "common" None)
     = ["[next-translate] The text " ++ dquote ++ "common" ++ dquote
        ++ " has no namespace in front of it."].
Proof.
  apply (colon_free_key_reported object_prototype ns0 english cfg0
           "common" None None);
    reflexivity.
Defined.

Lemma interpolation_twice_witness :
  exists out,
    interpolation (Some (render welcome))
      (Some [("name", QStr "Ana"); ("n", QNum 3)]) cfg0 = Return out
    /\ interpolation (Some out)
         (Some [("name", QStr "Ana"); ("n", QNum 3)]) cfg0 = Return out.
Proof.
  apply (interpolation_twice cfg0 [("name", QStr "Ana"); ("n", QNum 3)]
           welcome);
    reflexivity.
Defined.

Lemma interpolation_order_irrelevant_witness :
  interpolation (Some (render welcome))
    (Some [("name", QStr "Ana"); ("n", QNum 3)]) cfg0
  = interpolation (Some (render welcome))
      (Some [("n", QNum 3); ("name", QStr "Ana")]) cfg0.
Proof.
  apply (interpolation_order_irrelevant cfg0
           [("name", QStr "Ana"); ("n", QNum 3)]
           [("n", QNum 3); ("name", QStr "Ana")] welcome).
  - reflexivity.
  - apply perm_swap.
  - repeat constructor; simpl; intuition discriminate.
  - reflexivity.
  - reflexivity.
Defined.

Lemma getDicValue_string_index_witness :
  getDicValue object_prototype common (Some "greeting.1") None = VStr "e".
Proof.
  apply (getDicValue_string_index object_prototype common "greeting"
           "Hello {{name}}" 1 "e" None);
    reflexivity.
Defined.

Lemma t_options_normalised_witness :
  t0 "common:missing" None
    (Some (mkOptions false (FbString "common:greeting")))
  = t0 "common:missing" None
      (Some (mkOptions false (FbArray ["common:greeting"]))).
Proof.
  apply (t_options_normalised object_prototype ns0 english cfg0 true
           "common:missing" None
           (Some (mkOptions false (FbString "common:greeting")))
           (Some (mkOptions false (FbArray ["common:greeting"]))));
    reflexivity.
Defined.

Lemma object_returned_witness :
  t0 "common:menu" (Some ana) (Some (mkOptions true FbAbsent))
  = Return (VObj [("home", VStr "Home"); ("about", VStr "About Ana")], []).
Proof.
  apply (object_returned object_prototype ns0 english cfg0 true
           "common:menu" "common" (Some "menu") common ana
           (Some (mkOptions true FbAbsent)) (Some "menu")
           "home" (VStr "Home") [("about", VStr "About {{name}}")] with_ana);
    try reflexivity.
  intros [|c s]; reflexivity.
Defined.

Lemma interpolation_literal_names_return_witness :
  exists out,
    interpolation (Some "total: ${sum} (${sum})")
      (Some [("sum", QStr "$$5")]) (mkConfig (Some ("${", "}")))
    = Return out.
Proof.
  apply (interpolation_literal_names_return (mkConfig (Some ("${", "}")))
           (Some "total: ${sum} (${sum})") [("sum", QStr "$$5")]).
  reflexivity.
Defined.

(** Custom delimiters with syntax characters, and a value with [$$]. *)
Example custom_delimiters :
  interpolation (Some "total: ${sum} (${ sum })")
    (Some [("sum", QStr "$$5")]) (mkConfig (Some ("${", "}")))
  = Return "total: $5 ($5)".
Proof. reflexivity. Qed.
